(** * Semantic-navigation core: global package cache and node classifier

    A shallow embedding of the two Go sources of the repository:
    - the global package cache ([package cache]: [Put], [Get], [Walk],
      [Add], [recursiveAdd], [newPackage], [addImport]);
    - the syntax-node classifier and the position/symbol resolver of
      [internal/lsp/source/ast.go] ([findInterestingNode],
      [doEnclosingInterval], [getPathNodes], [getObjectPathNode],
      [fetchIdentFromPathNodes]).

    Go pointers are addresses into an explicit heap, Go maps are [gmap]s,
    a run-time panic is the [None] of an [option] (cache) or a dedicated
    outcome (classifier). *)

From stdpp Require Import gmap strings list fin_maps.

Open Scope string_scope.
Open Scope nat_scope.
Open Scope list_scope.
Set Warnings "-register-all".

(* ===================================================================== *)
(** ** Part I: the global package cache *)
(* ===================================================================== *)

Module Cache.

(** *** Descriptors handed in by the build layer ([packages.Package]) *)

(** A parsed file is only passed through; its pointer identity suffices. *)
Abbreviation ast_File := nat.

(** [*types.Package]: the cache only ever asks for its [Path()]. *)
Record types_Package := { types_Path : string }.

(** The fields of [packages.Package] read by [recursiveAdd] and
    [newPackage].  [Types] may be a nil pointer.  [Imports] is a Go map;
    the list gives its entries in the order in which [range] enumerates
    them (any order may occur, and the recursion reads nothing else). *)
Inductive Package := mkPackage {
  ID : string;
  PkgPath : string;
  Syntax : list ast_File;
  Errors : list string;
  Types : option types_Package;
  TypesInfo : option nat;
  Imports : list (string * Package)
}.

(** *** Heap objects *)

Abbreviation addr := nat.

Record astFile := { file : ast_File }.

(** The struct [pkg] as [newPackage] fills it in.  [imports] holds
    pointers ([addr]) to other units: shared, non-owning references. *)
Record pkg := mkPkg {
  id : string;
  pkgPath : string;
  files : list astFile;
  errors : list string;
  types : option types_Package;
  typesInfo : option nat;
  imports : gmap string addr
}.

(** Modelled from the spec: the accessor [GetTypes] of [pkg] is declared
    outside the given sources; it hands back the semantic-model handle
    stored in the unit, whose path is the key used by [put]. *)
Definition GetTypes (p : pkg) : option types_Package := types p.

Record globalPackage := { gp_pkg : addr }.

(** *** The lock and the map, as a trace of events

    The reader/writer mutex [mu] is modelled by the sequence of lock
    operations and map accesses a call performs, in program order. *)
Inductive event :=
| EvLock | EvUnlock | EvRLock | EvRUnlock
| EvMapRead (k : string)
| EvMapWrite (k : string)
| EvMapRange.

Record state := mkState {
  heap : list pkg;
  pathMap : gmap string globalPackage;
  trace : list event
}.

Definition NewCache : state :=
  {| heap := []; pathMap := ∅; trace := [] |}.

Definition emit (e : event) (s : state) : state :=
  {| heap := heap s; pathMap := pathMap s; trace := trace s ++ [e] |}.

Definition set_heap (h : list pkg) (s : state) : state :=
  {| heap := h; pathMap := pathMap s; trace := trace s |}.

Definition set_pathMap (m : gmap string globalPackage) (s : state) : state :=
  {| heap := heap s; pathMap := m; trace := trace s |}.

(** *** Operations *)

(** [func (c *globalCache) put(pkg *pkg)]: no locking of its own.
    [None] is the nil dereference of [pkg.GetTypes().Path()]. *)
Definition put (p : addr) (s : state) : option state :=
  pk ← heap s !! p;
  t ← GetTypes pk;
  let pkgPath := types_Path t in
  Some (emit (EvMapWrite pkgPath)
          (set_pathMap (<[pkgPath := {| gp_pkg := p |}]> (pathMap s)) s)).

(** [func (c *globalCache) Put(pkg *pkg)] *)
Definition Put (p : addr) (s : state) : option state :=
  s' ← put p (emit EvLock s);
  Some (emit EvUnlock s').

(** [func (c *globalCache) get(pkgPath string) *pkg] *)
Definition get (pkgPath : string) (s : state) : option addr * state :=
  (gp_pkg <$> pathMap s !! pkgPath, emit (EvMapRead pkgPath) s).

(** [func (c *globalCache) Get(pkgPath string) *pkg] *)
Definition Get (pkgPath : string) (s : state) : option addr * state :=
  let '(p, s') := get pkgPath (emit EvRLock s) in
  (p, emit EvRUnlock s').

(** [func (c *globalCache) getGlobalPackage(pkgPath string) *globalPackage] *)
Definition getGlobalPackage (pkgPath : string) (s : state)
  : option globalPackage * state :=
  (pathMap s !! pkgPath,
   emit EvRUnlock (emit (EvMapRead pkgPath) (emit EvRLock s))).

(** [func createAstFiles(p *packages.Package) []*astFile] *)
Definition createAstFiles (p : Package) : list astFile :=
  (λ f, {| file := f |}) <$> Syntax p.

(** [func newPackage(p *packages.Package) *pkg]: allocates at the next
    free address. *)
Definition newPackage (p : Package) (s : state) : addr * state :=
  let fresh :=
    {| id := ID p; pkgPath := PkgPath p; files := createAstFiles p;
       errors := Errors p; types := Types p; typesInfo := TypesInfo p;
       imports := ∅ |} in
  (length (heap s), set_heap (heap s ++ [fresh]) s).

(** [func (p *pkg) addImport(ip *pkg)]: [p.imports[p.pkgPath] = ip].
    The key is the path of the receiver [p].  The receiver is always a
    unit that [newPackage] has just allocated. *)
Definition addImport (p ip : addr) (s : state) : state :=
  set_heap
    (alter (λ pk, mkPkg (id pk) (pkgPath pk) (files pk) (errors pk)
                        (types pk) (typesInfo pk)
                        (<[pkgPath pk := ip]> (imports pk)))
           p (heap s)) s.

(** [func (c *globalCache) recursiveAdd(pkg *packages.Package, parent *pkg)] *)
Fixpoint recursiveAdd (d : Package) (parent : option addr) (s : state)
  : option state :=
  match getGlobalPackage (PkgPath d) s with
  | (Some p, s1) =>
      match parent with
      | Some par => Some (addImport par (gp_pkg p) s1)
      | None => Some s1
      end
  | (None, s1) =>
      let '(p, s2) := newPackage d s1 in
      s3 ← (fix range (ips : list (string * Package)) (s : state)
              : option state :=
              match ips with
              | [] => Some s
              | (_, ip) :: rest => s' ← recursiveAdd ip (Some p) s; range rest s'
              end) (Imports d) s2;
      s4 ← put p s3;
      match parent with
      | Some par => Some (addImport par p s4)
      | None => Some s4
      end
  end.

(** The [for _, ip := range pkg.Imports] loop of [recursiveAdd], by name. *)
Fixpoint range_imports (p : addr) (ips : list (string * Package)) (s : state)
  : option state :=
  match ips with
  | [] => Some s
  | (_, ip) :: rest => s' ← recursiveAdd ip (Some p) s; range_imports p rest s'
  end.

(** [func (c *globalCache) Add(pkg *packages.Package)] *)
Definition Add (d : Package) (s : state) : option state :=
  recursiveAdd d None s.

(** *** Walk

    A visitor is a Go closure: it answers with a boolean and may update
    whatever it captured (the component [V]).  [order] is the sequence in
    which [range c.pathMap] happens to yield the entries.  The first
    component of the result lists the units on which the visitor ran. *)
Definition WalkFunc (V : Type) := addr → V → bool * V.

Fixpoint walk_range {V} (walkFunc : WalkFunc V)
    (order : list (string * globalPackage)) (v : V) : list addr * V :=
  match order with
  | [] => ([], v)
  | (_, gp) :: rest =>
      let '(stop, v1) := walkFunc (gp_pkg gp) v in
      if stop then ([gp_pkg gp], v1)
      else let '(seen, v2) := walk_range walkFunc rest v1 in
           (gp_pkg gp :: seen, v2)
  end.

(** [func (c *globalCache) walk(walkFunc source.WalkFunc)] *)
Definition walk {V} (walkFunc : WalkFunc V)
    (order : list (string * globalPackage)) (v : V) (s : state)
  : list addr * V * state :=
  let s1 := emit EvMapRange (emit EvRLock s) in
  let '(seen, v') := walk_range walkFunc order v in
  (seen, v', emit EvRUnlock s1).

(** [func (c *globalCache) Walk(walkFunc source.WalkFunc)] *)
Definition Walk {V} (walkFunc : WalkFunc V)
    (order : list (string * globalPackage)) (v : V) (s : state)
  : list addr * V * state :=
  walk walkFunc order v s.

(** The answers the visitor gives when it is run on the entries of
    [order] one after the other, to the end. *)
Fixpoint answers {V} (walkFunc : WalkFunc V)
    (order : list (string * globalPackage)) (v : V) : list bool :=
  match order with
  | [] => []
  | (_, gp) :: rest =>
      let '(stop, v1) := walkFunc (gp_pkg gp) v in
      stop :: answers walkFunc rest v1
  end.

(** The unit an entry of the map stands for. *)
Definition unit_of (e : string * globalPackage) : addr := gp_pkg e.2.

(** *** Lock discipline of a trace

    [exclusive_writes held tr]: every write to the map in [tr] happens
    while the writer lock is held, [held] telling whether it is held when
    [tr] starts. *)
Fixpoint exclusive_writes (held : bool) (tr : list event) : bool :=
  match tr with
  | [] => true
  | EvLock :: rest => exclusive_writes true rest
  | EvUnlock :: rest => exclusive_writes false rest
  | EvMapWrite _ :: rest => held && exclusive_writes held rest
  | _ :: rest => exclusive_writes held rest
  end.

(** [h'] still holds every unit of [h], with its identity untouched. *)
Definition heap_extends (h h' : list pkg) : Prop :=
  ∀ a pk, h !! a = Some pk →
    ∃ pk', h' !! a = Some pk' ∧ types pk' = types pk ∧ pkgPath pk' = pkgPath pk.

(** A call only adds: units stay, registered paths stay, and the events
    it appends contain no [Lock]. *)
Definition grows (s s' : state) : Prop :=
  heap_extends (heap s) (heap s') ∧
  dom (pathMap s) ⊆ dom (pathMap s') ∧
  ∃ t, trace s' = trace s ++ t ∧ EvLock ∉ t.

(** *** Descriptor trees and invariants of the heap *)

(** Every descriptor of the tree carries type information. *)
Fixpoint typed (d : Package) : bool :=
  match Types d with
  | Some _ =>
      (fix all (ips : list (string * Package)) : bool :=
         match ips with
         | [] => true
         | (_, ip) :: rest => typed ip && all rest
         end) (Imports d)
  | None => false
  end.

(** The imports of a typed descriptor, one by one. *)
Fixpoint all_typed (ips : list (string * Package)) : bool :=
  match ips with
  | [] => true
  | (_, ip) :: rest => typed ip && all_typed rest
  end.

(** The paths of the type information found in a descriptor tree. *)
Fixpoint type_paths (d : Package) : list string :=
  match Types d with
  | Some t => [types_Path t]
  | None => []
  end ++
  (fix all (ips : list (string * Package)) : list string :=
     match ips with
     | [] => []
     | (_, ip) :: rest => type_paths ip ++ all rest
     end) (Imports d).

Fixpoint type_paths_imports (ips : list (string * Package)) : list string :=
  match ips with
  | [] => []
  | (_, ip) :: rest => type_paths ip ++ type_paths_imports rest
  end.

(** The registered paths of [s'] are those of [s] and some of [paths]. *)
Definition registers_within (paths : list string) (s s' : state) : Prop :=
  ∀ k, k ∈ dom (pathMap s') → k ∈ dom (pathMap s) ∨ k ∈ paths.

(** [pk'] is [pk] up to its import edges. *)
Definition same_unit (pk pk' : pkg) : Prop :=
  id pk' = id pk ∧ pkgPath pk' = pkgPath pk ∧ files pk' = files pk ∧
  errors pk' = errors pk ∧ types pk' = types pk ∧
  typesInfo pk' = typesInfo pk.

(** Every unit of [h] is still in [h'], at the same address, changed in
    nothing but its import edges. *)
Definition heap_keeps (h h' : list pkg) : Prop :=
  ∀ a pk, h !! a = Some pk → ∃ pk', h' !! a = Some pk' ∧ same_unit pk pk'.

(** What a registration leaves alone: the registered paths and the data
    of the units. *)
Definition only_adds (s s' : state) : Prop :=
  dom (pathMap s) ⊆ dom (pathMap s') ∧ heap_keeps (heap s) (heap s').

(** The import map of every unit has no key but the unit's own path. *)
Definition own_key_only (h : list pkg) : Prop :=
  ∀ a pk, h !! a = Some pk → dom (imports pk) ⊆ {[pkgPath pk]}.

(** Every entry of the map is filed under the path of the type
    information of its unit. *)
Definition keyed_by_types (s : state) : Prop :=
  ∀ k gp, pathMap s !! k = Some gp →
    ∃ pk t, heap s !! gp_pkg gp = Some pk ∧ types pk = Some t ∧
            types_Path t = k.

End Cache.

(* ===================================================================== *)
(** ** Part II: node classifier and position/symbol resolver ([ast.go]) *)
(* ===================================================================== *)

Module Source.

(** *** Syntax ([go/ast]) *)

(** [token.Pos]; [NoPos] is the zero value. *)
Abbreviation Pos := Z.
Definition NoPos : Pos := 0%Z.

(** [*ast.Ident]: [ident_ptr] is the pointer, the key of the maps of
    [types.Info]. *)
Record Ident := { ident_ptr : nat; ident_Name : string }.

(** The implementations of [ast.Stmt].  [CaseClause] and [CommClause]
    carry the [stmtNode] marker in [go/ast] and so belong here. *)
Inductive StmtKind :=
| BadStmt | DeclStmt | EmptyStmt | LabeledStmt | ExprStmt | SendStmt
| IncDecStmt | AssignStmt | GoStmt | DeferStmt | ReturnStmt | BranchStmt
| BlockStmt | IfStmt | CaseClause | SwitchStmt | TypeSwitchStmt
| CommClause | SelectStmt | ForStmt | RangeStmt.

(** The implementations of [ast.Expr] that [findInterestingNode] does not
    name in a case of their own. *)
Inductive ExprKind :=
| BadExpr | FuncLit | CompositeLit | ParenExpr | IndexExpr | SliceExpr
| TypeAssertExpr | CallExpr | UnaryExpr | BinaryExpr.

(** The implementations of [ast.Spec], with the fields the classifier
    reads. *)
Inductive Spec :=
| ImportSpec
| ValueSpec (Names : list Ident)
| TypeSpec (Name : Ident).

(** [ast.Node], by dynamic type. *)
Inductive Node :=
| GenDecl (Specs : list Spec)
| FuncDecl (Name : Ident)
| SpecNode (s : Spec)
| Stmt (k : StmtKind)
| ArrayType | StructType | FuncType | InterfaceType | MapType | ChanType
| Comment | CommentGroup | File | KeyValueExpr
| Ellipsis
| Field (Names : list Ident)
| FieldList
| BasicLit
| SelectorExpr (Sel : Ident)
| IdentNode (n : Ident)
| StarExpr (ptr : nat)
| Expr (k : ExprKind)
| BadDecl | PackageNode.

(** *** Semantic model ([go/types]) *)

Record types_Package := { types_Path : string }.

(** Dynamic type of a [types.Object]. *)
Inductive ObjectKind :=
| PkgName | Const | TypeName | Var | Func | Label | Builtin | Nil.

Record Object := {
  obj_kind : ObjectKind;
  obj_Name : string;
  obj_Pos : Pos;
  obj_Pkg : option types_Package
}.

Record TypeAndValue := { tv_IsType : bool }.

(** [types.Info]: Go maps keyed by node pointers.  An entry may hold a
    nil object. *)
Record Info := {
  Defs : gmap nat (option Object);
  Uses : gmap nat (option Object);
  Types : gmap nat TypeAndValue
}.

(** Indexing a Go map of objects: nil for a missing key. *)
Definition map_index (m : gmap nat (option Object)) (k : nat) : option Object :=
  mjoin (m !! k).

(** [func (info *Info) ObjectOf(id *ast.Ident) Object] *)
Definition ObjectOf (info : Info) (id : Ident) : option Object :=
  match map_index (Defs info) (ident_ptr id) with
  | Some obj => Some obj
  | None => map_index (Uses info) (ident_ptr id)
  end.

(** [info.Types[n].IsType()]; the zero [TypeAndValue] is not a type. *)
Definition Types_IsType (info : Info) (ptr : nat) : bool :=
  match Types info !! ptr with
  | Some tv => tv_IsType tv
  | None => false
  end.

(** [*ast.File] as seen by the resolver: [file_Pos] is [f.Pos()]. *)
Record astFile := { file_ptr : nat; file_Pos : Pos }.

(** The interface [Package], by its methods.  [GetSyntax] may return a
    nil slice, [GetImport] a nil [Package]; the type information
    ([GetTypes], [GetTypesInfo]) is taken to be present. *)
Inductive Package := mkPackage {
  GetSyntax : option (list astFile);
  GetImport : string → option Package;
  GetTypes : types_Package;
  GetTypesInfo : Info
}.

(** *** The classifier *)

Inductive action :=
| actionUnknown | actionExpr | actionType | actionStmt | actionPackage.

(** Effect of one pass through the body of the [for] loop. *)
Inductive step_result :=
| Return (path : list Node) (a : action)
| Continue (path : list Node)
| Panic.

(** What a call does: it returns a pair, or a run-time panic unwinds it.
    The nil slice of the final [return nil, actionUnknown] is [[]]. *)
Inductive outcome :=
| Returned (path : list Node) (a : action)
| Panicked.

(** [path = path[1:]] *)
Definition ascend (path : list Node) : step_result := Continue (drop 1 path).

(** [case *types.Var:] of the identifier case. *)
Definition var_case (path : list Node) : step_result :=
  match path !! 1 with
  | None => Panic
  | Some (Field _) =>
      match path !! 2 with
      | Some FieldList =>
          match path !! 3 with
          | None => Panic
          | Some StructType => Return (drop 3 path) actionType
          | Some _ => Return path actionExpr
          end
      | _ => Panic
      end
  | Some _ => Return path actionExpr
  end.

(** The [// No object.] switch of the identifier case. *)
Definition no_object_case (path : list Node) : step_result :=
  match path !! 1 with
  | None => Panic
  | Some (SelectorExpr _) => Return (drop 1 path) actionExpr
  | Some (Field _) => ascend path
  | Some File => Return path actionPackage
  | Some (SpecNode ImportSpec) => Return (drop 1 path) actionPackage
  | Some _ => Return path actionUnknown
  end.

(** [switch n := path[0].(type)], for [n = path[0]].  Every [Stmt] is
    taken by [case ast.Stmt], which precedes the case that lists
    [*ast.CommClause]. *)
Definition loop_body (pkg : Package) (n : Node) (path : list Node)
  : step_result :=
  match n with
  | GenDecl Specs =>
      match Specs with
      | [s] => Continue (SpecNode s :: path)
      | _ => Return path actionUnknown
      end
  | FuncDecl Name => Continue (IdentNode Name :: path)
  | SpecNode ImportSpec => Return path actionPackage
  | SpecNode (ValueSpec Names) =>
      match Names with
      | [x] => Continue (IdentNode x :: path)
      | _ => Return path actionUnknown
      end
  | SpecNode (TypeSpec Name) => Continue (IdentNode Name :: path)
  | Stmt _ => Return path actionStmt
  | ArrayType | StructType | FuncType | InterfaceType | MapType | ChanType =>
      Return path actionType
  | Comment | CommentGroup | File | KeyValueExpr => Return path actionUnknown
  | Ellipsis => ascend path
  | Field Names =>
      match Names with
      | [x] => Continue (IdentNode x :: path)
      | _ => ascend path
      end
  | FieldList => ascend path
  | BasicLit =>
      match path !! 1 with
      | None => Panic
      | Some (SpecNode ImportSpec) => Return (drop 1 path) actionPackage
      | Some _ => Return path actionExpr
      end
  | SelectorExpr Sel =>
      match map_index (Uses (GetTypesInfo pkg)) (ident_ptr Sel) with
      | None => Return path actionUnknown
      | Some _ => Continue (IdentNode Sel :: path)
      end
  | IdentNode n =>
      match ObjectOf (GetTypesInfo pkg) n with
      | Some obj =>
          match obj_kind obj with
          | PkgName => Return path actionPackage
          | Const => Return path actionExpr
          | Label => Return path actionStmt
          | TypeName => Return path actionType
          | Var => var_case path
          | Func => Return path actionExpr
          | Builtin => Continue (drop 1 path)
          | Nil => Return path actionExpr
          end
      | None => no_object_case path
      end
  | StarExpr ptr =>
      if Types_IsType (GetTypesInfo pkg) ptr then Return path actionType
      else Return path actionExpr
  | Expr _ => Return path actionExpr
  | BadDecl | PackageNode => ascend path
  end.

(** [func findInterestingNode(pkg Package, path []ast.Node)
    ([]ast.Node, action)].  One unit of [fuel] pays for one test of the
    loop condition; [None] means the loop is still running when the fuel
    is spent. *)
Fixpoint findInterestingNode (fuel : nat) (pkg : Package) (path : list Node)
  : option outcome :=
  match fuel with
  | O => None
  | S fuel' =>
      match path with
      | [] => Some (Returned [] actionUnknown)
      | n :: _ =>
          match loop_body pkg n path with
          | Return p a => Some (Returned p a)
          | Continue p => findInterestingNode fuel' pkg p
          | Panic => Some Panicked
          end
      end
  end.

(** An ancestor chain as the contract of the classifier describes it:
    innermost node first, the file root last; and, as in every [go/ast]
    tree, a field sits directly in a field list. *)
Fixpoint fields_in_lists (path : list Node) : bool :=
  match path with
  | [] => true
  | Field _ :: rest =>
      match rest with
      | FieldList :: _ => fields_in_lists rest
      | _ => false
      end
  | _ :: rest => fields_in_lists rest
  end.

Definition ends_at_file (path : list Node) : bool :=
  match last path with
  | Some File => true
  | _ => false
  end.

Definition well_formed_chain (path : list Node) : bool :=
  ends_at_file path && fields_in_lists path.

Definition is_field (n : Node) : bool :=
  match n with
  | Field _ => true
  | _ => false
  end.

(** Whether a pass on the identifier [id] ends the call when the loop
    has descended to it: it does unless [id] denotes a built-in, or has
    no object while sitting in a field. *)
Definition settles (pkg : Package) (id : Ident) (in_field : bool) : bool :=
  match ObjectOf (GetTypesInfo pkg) id with
  | Some obj =>
      match obj_kind obj with
      | Builtin => false
      | _ => true
      end
  | None => negb in_field
  end.

(** The identifiers to which the loop descends from [n] all settle. *)
Definition descends_safely (pkg : Package) (n : Node) : bool :=
  match n with
  | GenDecl [ValueSpec [x]] | GenDecl [TypeSpec x]
  | SpecNode (ValueSpec [x]) | SpecNode (TypeSpec x)
  | FuncDecl x => settles pkg x false
  | Field [x] => settles pkg x true
  | SelectorExpr Sel =>
      match map_index (Uses (GetTypesInfo pkg)) (ident_ptr Sel) with
      | None => true
      | Some _ => settles pkg Sel false
      end
  | _ => true
  end.

(** The loop leaves through its condition: every pass ascends or
    descends until the chain is used up. *)
Inductive exhausts (pkg : Package) : list Node → Prop :=
| exhausts_nil : exhausts pkg []
| exhausts_step n path path' :
    loop_body pkg n (n :: path) = Continue path' →
    exhausts pkg path' →
    exhausts pkg (n :: path).

(** *** Reading a verdict *)

(** The category the identifier case gives for an object of kind [k]
    that is not a built-in and not subject to the struct tie-break. *)
Definition kind_action (k : ObjectKind) : action :=
  match k with
  | PkgName => actionPackage
  | Label => actionStmt
  | TypeName => actionType
  | Const | Var | Func | Builtin | Nil => actionExpr
  end.

Definition kind_of (pkg : Package) (id : Ident) : option ObjectKind :=
  obj_kind <$> ObjectOf (GetTypesInfo pkg) id.

(** What the comments on the [action] constants announce: the node at
    which a category is reported. *)
Definition verdict_fits (pkg : Package) (path : list Node) (a : action)
  : bool :=
  match a, path with
  | actionUnknown, _ => true
  | actionStmt, Stmt _ :: _ => true
  | actionStmt, IdentNode id :: _ =>
      match kind_of pkg id with
      | Some Label => true
      | _ => false
      end
  | actionType, (ArrayType | StructType | FuncType | InterfaceType
                 | MapType | ChanType) :: _ => true
  | actionType, IdentNode id :: _ =>
      match kind_of pkg id with
      | Some TypeName => true
      | _ => false
      end
  | actionType, StarExpr ptr :: _ => Types_IsType (GetTypesInfo pkg) ptr
  | actionPackage, SpecNode ImportSpec :: _ => true
  | actionPackage, IdentNode id :: rest =>
      match kind_of pkg id, rest with
      | Some PkgName, _ => true
      | None, File :: _ => true
      | _, _ => false
      end
  | actionExpr, (BasicLit | SelectorExpr _ | Expr _) :: _ => true
  | actionExpr, StarExpr ptr :: _ => negb (Types_IsType (GetTypesInfo pkg) ptr)
  | actionExpr, IdentNode id :: _ =>
      match kind_of pkg id with
      | Some (Const | Var | Func | Nil) => true
      | _ => false
      end
  | _, _ => false
  end.

(** The name to which one pass descends from a function declaration, a
    type or single-name value specifier, or a selector whose member has
    a recorded use. *)
Definition descent_target (pkg : Package) (n : Node) : option Ident :=
  match n with
  | FuncDecl x | SpecNode (TypeSpec x) | SpecNode (ValueSpec [x]) => Some x
  | SelectorExpr sel =>
      match map_index (Uses (GetTypesInfo pkg)) (ident_ptr sel) with
      | Some _ => Some sel
      | None => None
      end
  | _ => None
  end.

(** A verdict given below the specifier [s]: the nodes the loop has
    descended to, and the category; [None] while the loop is running.
    [place] puts it on top of the ancestors [up] of [s]. *)
Definition place (s : Spec) (r : option (list Node * action))
    (up : list Node) : option outcome :=
  (λ v, Returned (v.1 ++ SpecNode s :: up) v.2) <$> r.

(** [func findObject(pkg Package, o types.Object) types.Object]; [order]
    is the sequence in which [range pkg.GetTypesInfo().Defs] happens to
    yield the entries of the map. *)
Fixpoint findObject_range (o : Object) (order : list (nat * option Object))
  : option Object :=
  match order with
  | [] => None
  | (_, None) :: rest => findObject_range o rest
  | (_, Some def) :: rest =>
      if bool_decide (obj_Name def = obj_Name o) then Some def
      else findObject_range o rest
  end.

Definition findObject (pkg : Package) (order : list (nat * option Object))
    (o : Object) : option Object :=
  findObject_range o order.

(** *** The resolver *)

(** The failures a resolver call can hand back. *)
Inductive error :=
| ErrNoNode (start : Pos)
    (* "no node found at %s offset %d" *)
| ErrMissingImport (importPath pkgPath : string)
    (* "import package %s of package %s does not exist" *)
| ErrInvalidNode (node : Node).
    (* [*InvalidNodeError] *)

(** A call either returns its results or is unwound by a panic. *)
Inductive result (A : Type) :=
| Done (a : A)
| Crash.
Arguments Done {A} a.
Arguments Crash {A}.

(** [len] of a possibly nil slice. *)
Definition len {A} (s : option (list A)) : nat :=
  match s with
  | Some l => length l
  | None => 0
  end.

(** The files of a unit; none for a nil unit or a nil slice. *)
Definition files_of (pkg : option Package) : list astFile :=
  default [] (pkg ≫= GetSyntax).

Section Resolver.

(** Collaborators that live outside the given sources: the position
    index of [go/token], the helper [tokenFileContainsPos] of this
    package, and [astutil.PathEnclosingInterval]. *)
Variable FileSet : Type.
Variable tokenFile : Type.
Variable fset_File : FileSet → Pos → option tokenFile.
Variable tokenFileContainsPos : option tokenFile → Pos → bool.
Variable PathEnclosingInterval :
  astFile → Pos → Pos → option (list Node) * bool.

(** The [for _, f := range pkg.GetSyntax()] loop of
    [doEnclosingInterval]. *)
Fixpoint range_files (fset : FileSet) (start end_ : Pos)
    (fs : list astFile) : option (list Node) * bool :=
  match fs with
  | [] => (None, false)
  | f :: rest =>
      if bool_decide (file_Pos f = NoPos) then
        range_files fset start end_ rest
      else if negb (tokenFileContainsPos (fset_File fset (file_Pos f)) start)
      then range_files fset start end_ rest
      else
        match PathEnclosingInterval f start end_ with
        | (Some path, exact) => (Some path, exact)
        | (None, _) => range_files fset start end_ rest
        end
  end.

(** The files the loop looks into: those with a valid position whose
    position index contains [start]. *)
Definition searched (fset : FileSet) (start : Pos) (f : astFile) : bool :=
  negb (bool_decide (file_Pos f = NoPos)) &&
  tokenFileContainsPos (fset_File fset (file_Pos f)) start.

(** [func doEnclosingInterval(pkg Package, fset *token.FileSet,
    start, end token.Pos) ([]ast.Node, bool)] *)
Definition doEnclosingInterval (pkg : option Package) (fset : FileSet)
    (start end_ : Pos) : option (list Node) * bool :=
  match pkg with
  | None => (None, false)
  | Some pkg =>
      match GetSyntax pkg with
      | None => (None, false)
      | Some fs => range_files fset start end_ fs
      end
  end.

(** [func astPathEnclosingInterval] *)
Definition astPathEnclosingInterval (pkg : option Package) (fset : FileSet)
    (start end_ : Pos) : option (list Node) * bool :=
  doEnclosingInterval pkg fset start end_.

(** [func getPathNodes(pkg Package, fset *token.FileSet,
    start, end token.Pos) ([]ast.Node, error)] *)
Definition getPathNodes (pkg : option Package) (fset : FileSet)
    (start end_ : Pos) : option (list Node) * option error :=
  let nodes := fst (astPathEnclosingInterval pkg fset start end_) in
  if bool_decide (len nodes = 0) then (nodes, Some (ErrNoNode start))
  else (nodes, None).

(** [func fetchIdentFromPathNodes(fset *token.FileSet, nodes []ast.Node)],
    returning an identifier and an error; [nodes[0]] panics on an
    empty slice. *)
Definition fetchIdentFromPathNodes (fset : FileSet)
    (nodes : option (list Node)) : result (option Ident * option error) :=
  match nodes with
  | Some (firstNode :: _) =>
      match firstNode with
      | IdentNode node => Done (Some node, None)
      | _ => Done (None, Some (ErrInvalidNode firstNode))
      end
  | _ => Crash
  end.

(** [func getObjectPathNode(pkg Package, fset *token.FileSet,
    o types.Object) (nodes []ast.Node, ident *ast.Ident, err error)].
    Method calls on a nil [pkg] or a nil [o.Pkg()] panic. *)
Definition getObjectPathNode (pkg : option Package) (fset : FileSet)
    (o : Object)
  : result (option (list Node) * option Ident * option error) :=
  let finish (nodes : option (list Node)) :=
    match fetchIdentFromPathNodes fset nodes with
    | Done (ident, err) => Done (nodes, ident, err)
    | Crash => Crash
    end in
  let nodes := fst (getPathNodes pkg fset (obj_Pos o) (obj_Pos o)) in
  if bool_decide (len nodes = 0) then
    match pkg, obj_Pkg o with
    | Some p, Some opkg =>
        match GetImport p (types_Path opkg) with
        | None =>
            Done (None, None,
                  Some (ErrMissingImport (types_Path opkg)
                                         (types_Path (GetTypes p))))
        | Some ip =>
            match getPathNodes (Some ip) fset (obj_Pos o) (obj_Pos o) with
            | (_, Some err) => Done (None, None, Some err)
            | (nodes', None) => finish nodes'
            end
        end
    | _, _ => Crash
    end
  else finish nodes.

End Resolver.

End Source.

(* ===================================================================== *)
(** ** Part III: concrete inputs used by the examples *)
(* ===================================================================== *)

Module Examples.

Import Cache.

(** The descriptor of a unit whose [Types] carries its own path. *)
Definition descriptor (path : string) (imps : list (string * Package))
  : Package :=
  {| ID := path; PkgPath := path; Syntax := []; Errors := [];
     Types := Some {| types_Path := path |}; TypesInfo := None;
     Imports := imps |}.

Definition util_descriptor : Package := descriptor "util" [].

Definition main_descriptor : Package :=
  descriptor "main" [("util", util_descriptor)].

(** A unit without imports. *)
Definition lone_descriptor : Package := descriptor "main" [].

(** The cache after [main] and [util] have been registered. *)
Definition two_units : state :=
  default NewCache (Add main_descriptor NewCache).

(** An enumeration order of its two entries. *)
Definition two_units_order : list (string * globalPackage) :=
  [("main", {| gp_pkg := 0 |}); ("util", {| gp_pkg := 1 |})].

(** A unit loaded without type information, importing [util]. *)
Definition untyped_descriptor : Package :=
  {| ID := "raw"; PkgPath := "raw"; Syntax := [7]; Errors := [];
     Types := None; TypesInfo := None;
     Imports := [("util", util_descriptor)] |}.

(** A unit with one source file and one diagnostic. *)
Definition app_descriptor : Package :=
  {| ID := "app [test]"; PkgPath := "app"; Syntax := [11; 12];
     Errors := ["unused variable"];
     Types := Some {| types_Path := "app" |}; TypesInfo := Some 3;
     Imports := [("util", util_descriptor)] |}.

(** A visitor that counts its calls and stops at unit [a]. *)
Definition stop_at (a : addr) : WalkFunc nat :=
  λ u calls, (bool_decide (u = a), S calls).

(** A visitor that counts its calls and never stops. *)
Definition never_stop : WalkFunc nat :=
  λ _ calls, (false, S calls).

End Examples.

Module SourceExamples.

Import Source.

Definition x_id : Ident := {| ident_ptr := 1; ident_Name := "x" |}.
Definition y_id : Ident := {| ident_ptr := 2; ident_Name := "y" |}.
Definition f_id : Ident := {| ident_ptr := 3; ident_Name := "f" |}.
Definition T_id : Ident := {| ident_ptr := 4; ident_Name := "T" |}.

Definition no_info : Info := {| Defs := ∅; Uses := ∅; Types := ∅ |}.

(** A unit whose file was not analysed: no identifier has an object. *)
Definition unanalyzed : Package :=
  {| GetSyntax := Some []; GetImport := λ _, None;
     GetTypes := {| types_Path := "p" |}; GetTypesInfo := no_info |}.

(** [x] selected in [func f(x int)]. *)
Definition param_name_path : list Node :=
  [IdentNode x_id; Field [x_id]; FieldList; FuncType; FuncDecl f_id; File].

(** [x] selected in [type T struct { x, y int }]. *)
Definition struct_pair_path : list Node :=
  [IdentNode x_id; Field [x_id; y_id]; FieldList; StructType;
   SpecNode (TypeSpec T_id); GenDecl [TypeSpec T_id]; File].

(** [x] selected in [type T struct { x int }]. *)
Definition struct_member_path : list Node :=
  [IdentNode x_id; Field [x_id]; FieldList; StructType;
   SpecNode (TypeSpec T_id); GenDecl [TypeSpec T_id]; File].

Definition x_var : Object :=
  {| obj_kind := Var; obj_Name := "x"; obj_Pos := 120;
     obj_Pkg := Some {| types_Path := "b" |} |}.

(** A unit in which [x] is a variable. *)
Definition analyzed : Package :=
  {| GetSyntax := Some []; GetImport := λ _, None;
     GetTypes := {| types_Path := "p" |};
     GetTypesInfo :=
       {| Defs := {[ 1 := Some x_var ]}; Uses := ∅; Types := ∅ |} |}.

Definition Sizeof_id : Ident := {| ident_ptr := 5; ident_Name := "Sizeof" |}.

Definition Sizeof_builtin : Object :=
  {| obj_kind := Builtin; obj_Name := "Sizeof"; obj_Pos := NoPos;
     obj_Pkg := Some {| types_Path := "unsafe" |} |}.

(** A fully analysed unit that calls [unsafe.Sizeof]: the type checker
    records the built-in as the use of the selected name. *)
Definition uses_unsafe : Package :=
  {| GetSyntax := Some []; GetImport := λ _, None;
     GetTypes := {| types_Path := "p" |};
     GetTypesInfo :=
       {| Defs := ∅; Uses := {[ 5 := Some Sizeof_builtin ]}; Types := ∅ |} |}.

(** [Sizeof] selected in the statement [unsafe.Sizeof(v)] of [func f]. *)
Definition unsafe_Sizeof_path : list Node :=
  [IdentNode Sizeof_id; SelectorExpr Sizeof_id; Expr CallExpr; Stmt ExprStmt;
   Stmt BlockStmt; FuncDecl f_id; File].

(** *** A position index and two units for the resolver *)

(** A [token.File] as base and size. *)
Definition span : Type := Z * Z.

(** Three files: [1..99], [101..199], and one whose parse failed. *)
Definition F1 : astFile := {| file_ptr := 1; file_Pos := 1 |}.
Definition F2 : astFile := {| file_ptr := 2; file_Pos := 101 |}.
Definition F_bad : astFile := {| file_ptr := 3; file_Pos := NoPos |}.

Definition the_fset : list span := [(1, 99); (101, 99)]%Z.

Definition span_contains (sp : span) (p : Z) : bool :=
  bool_decide (sp.1 ≤ p)%Z && bool_decide (p < sp.1 + sp.2)%Z.

Definition fset_File_ex (fset : list span) (p : Z) : option span :=
  snd <$> list_find (λ sp, span_contains sp p = true) fset.

Definition contains_ex (f : option span) (p : Z) : bool :=
  match f with
  | Some sp => span_contains sp p
  | None => false
  end.

(** The path down to the declaring identifier of [x] in [F2]. *)
Definition decl_path : list Node :=
  [IdentNode x_id; SpecNode (ValueSpec [x_id]); GenDecl [ValueSpec [x_id]];
   File].

Definition enclosing_ex (f : astFile) (start end_ : Z)
  : option (list Node) * bool :=
  if bool_decide (file_ptr f = 2) then (Some decl_path, true)
  else (Some [File], false).

(** Unit [b] owns [F_bad] and [F2]; unit [a] owns [F1] and imports [b]. *)
Definition unit_b : Package :=
  {| GetSyntax := Some [F_bad; F2]; GetImport := λ _, None;
     GetTypes := {| types_Path := "b" |}; GetTypesInfo := no_info |}.

Definition unit_a : Package :=
  {| GetSyntax := Some [F1];
     GetImport := λ k, if bool_decide (k = "b") then Some unit_b else None;
     GetTypes := {| types_Path := "a" |}; GetTypesInfo := no_info |}.

(** [x], declared in [b] at position 150. *)
Definition x_in_b : Object :=
  {| obj_kind := Var; obj_Name := "x"; obj_Pos := 150;
     obj_Pkg := Some {| types_Path := "b" |} |}.

(** The universe object [nil]: no package, no position. *)
Definition nil_object : Object :=
  {| obj_kind := Nil; obj_Name := "nil"; obj_Pos := NoPos; obj_Pkg := None |}.

(** [y], which [b] is said to declare at a position no file covers. *)
Definition y_lost : Object :=
  {| obj_kind := Var; obj_Name := "y"; obj_Pos := 250;
     obj_Pkg := Some {| types_Path := "b" |} |}.

(** A unit with the definitions of [x] and [y] and one identifier
    without object; the entries in one of the orders in which the map
    may be enumerated. *)
Definition y_var : Object :=
  {| obj_kind := Var; obj_Name := "y"; obj_Pos := 160;
     obj_Pkg := Some {| types_Path := "b" |} |}.

Definition unit_defs : Package :=
  {| GetSyntax := Some [F2]; GetImport := λ _, None;
     GetTypes := {| types_Path := "b" |};
     GetTypesInfo :=
       {| Defs := {[ 1 := Some x_in_b; 2 := Some y_var; 9 := None ]};
          Uses := ∅; Types := ∅ |} |}.

Definition unit_defs_order : list (nat * option Object) :=
  [(9, None); (2, Some y_var); (1, Some x_in_b)].

End SourceExamples.

(* ===================================================================== *)
(** ** Part IV: properties of the cache *)
(* ===================================================================== *)

Module CacheProofs.

Import Cache Examples.

(** One unfolding of [recursiveAdd], with its loop by name. *)
Lemma recursiveAdd_unfold d parent s :
  recursiveAdd d parent s =
  match getGlobalPackage (PkgPath d) s with
  | (Some p, s1) =>
      match parent with
      | Some par => Some (addImport par (gp_pkg p) s1)
      | None => Some s1
      end
  | (None, s1) =>
      let '(p, s2) := newPackage d s1 in
      s3 ← range_imports p (Imports d) s2;
      s4 ← put p s3;
      match parent with
      | Some par => Some (addImport par p s4)
      | None => Some s4
      end
  end.
Proof.
  destruct d as [i pp sx e t ti imps]. cbn [recursiveAdd PkgPath Imports].
  destruct (getGlobalPackage pp s) as [[gp|] s1]; [reflexivity|].
  destruct (newPackage _ s1) as [p s2]. f_equal.
  generalize s2. induction imps as [|[k d] rest IH]; intros s0; [reflexivity|].
  cbn. destruct (recursiveAdd d (Some p) s0) as [s0'|]; cbn; [apply IH|reflexivity].
Qed.

(** Induction over a descriptor and the descriptors it imports. *)
Lemma Package_nested_ind (P : Package → Prop) :
  (∀ d, Forall (λ e, P e.2) (Imports d) → P d) → ∀ d, P d.
Proof.
  intros step. fix IH 1. intros [i p sx e t ti imps]. apply step. simpl.
  induction imps as [|[k d] rest IHrest]; constructor; [apply IH | apply IHrest].
Qed.

(** [addImport] files the edge under the path of the importing unit. *)
Lemma addImport_key p ip s pk :
  heap s !! p = Some pk →
  ∃ pk', heap (addImport p ip s) !! p = Some pk' ∧
         imports pk' = <[pkgPath pk := ip]> (imports pk).
Proof.
  intros Hp. unfold addImport, set_heap. simpl.
  rewrite list_lookup_alter_eq, Hp. simpl. eauto.
Qed.

(** C1: [Add] of [main] importing [util] on an empty cache registers
    exactly two units and [Get "util"] yields the unit of [util]; the
    import edge of [main], however, is filed under the key ["main"], and
    [main]'s imports map has no entry under ["util"]. *)
Theorem Add_main_util_edge_key :
  ∃ s main util pk,
    Add main_descriptor NewCache = Some s ∧
    size (pathMap s) = 2 ∧
    (Get "main" s).1 = Some main ∧
    (Get "util" s).1 = Some util ∧
    heap s !! main = Some pk ∧
    imports pk !! "util" = None ∧
    imports pk !! "main" = Some util.
Proof.
  eexists _, 0, 1, _. split; [vm_compute; reflexivity|].
  repeat split; vm_compute; reflexivity.
Qed.

(** The locked sibling: [Put] brackets its write with [Lock]/[Unlock]. *)
Lemma Put_trace p s s' :
  Put p s = Some s' →
  ∃ k, trace s' = trace s ++ [EvLock; EvMapWrite k; EvUnlock].
Proof.
  unfold Put, put. simpl. intros H.
  destruct (heap s !! p) as [pk|]; simpl in H; [|discriminate].
  destruct (GetTypes pk) as [t|]; simpl in H; [|discriminate].
  injection H as <-. exists (types_Path t). simpl.
  rewrite <- !app_assoc. reflexivity.
Qed.

(** C4: on an empty cache, [Add] of a unit without imports writes the
    entry for ["main"] into the map after the reader lock has been
    released and without taking the writer lock: the write is not inside
    an exclusive critical section. *)
Theorem Add_writes_map_unlocked :
  ∃ s,
    Add lone_descriptor NewCache = Some s ∧
    trace s = [EvRLock; EvMapRead "main"; EvRUnlock; EvMapWrite "main"] ∧
    exclusive_writes false (trace s) = false.
Proof. eexists. repeat split; vm_compute; reflexivity. Qed.

(** *** Registration only adds *)

Lemma heap_extends_refl h : heap_extends h h.
Proof. intros a pk H. eauto. Qed.

Lemma heap_extends_trans h1 h2 h3 :
  heap_extends h1 h2 → heap_extends h2 h3 → heap_extends h1 h3.
Proof.
  intros H12 H23 a pk H.
  destruct (H12 a pk H) as (pk2 & H2 & Ht2 & Hp2).
  destruct (H23 a pk2 H2) as (pk3 & H3 & Ht3 & Hp3).
  exists pk3. split; [done|]. split; congruence.
Qed.

Lemma grows_refl s : grows s s.
Proof.
  split; [apply heap_extends_refl|]. split; [done|].
  exists []. split; [by rewrite app_nil_r | apply not_elem_of_nil].
Qed.

Lemma grows_trans s1 s2 s3 : grows s1 s2 → grows s2 s3 → grows s1 s3.
Proof.
  intros (Hh12 & Hd12 & t12 & Ht12 & Hl12) (Hh23 & Hd23 & t23 & Ht23 & Hl23).
  split; [eapply heap_extends_trans; eauto|]. split; [set_solver|].
  exists (t12 ++ t23). split.
  - rewrite Ht23, Ht12, app_assoc. reflexivity.
  - rewrite elem_of_app. tauto.
Qed.

Lemma grows_getGlobalPackage k s : grows s (getGlobalPackage k s).2.
Proof.
  split; [apply heap_extends_refl|]. split; [done|].
  exists [EvRLock; EvMapRead k; EvRUnlock]. split.
  - simpl. rewrite <- !app_assoc. reflexivity.
  - rewrite !elem_of_cons, elem_of_nil. intros [|[|[|]]]; done.
Qed.

Lemma grows_newPackage d s : grows s (newPackage d s).2.
Proof.
  split; [|split; [done|]].
  - intros a pk H. exists pk. simpl. rewrite lookup_app_l; [done|].
    by eapply lookup_lt_Some.
  - exists []. split; [by rewrite app_nil_r | apply not_elem_of_nil].
Qed.

Lemma grows_addImport p ip s : grows s (addImport p ip s).
Proof.
  split; [|split; [done|]].
  - intros a pk H. simpl. destruct (decide (a = p)) as [->|Hne].
    + rewrite list_lookup_alter_eq, H. simpl. eauto.
    + rewrite list_lookup_alter_ne by done. eauto.
  - exists []. split; [by rewrite app_nil_r | apply not_elem_of_nil].
Qed.

Lemma put_inv p s s' :
  put p s = Some s' →
  ∃ pk t, heap s !! p = Some pk ∧ types pk = Some t ∧
    s' = emit (EvMapWrite (types_Path t))
           (set_pathMap (<[types_Path t := {| gp_pkg := p |}]> (pathMap s)) s).
Proof.
  unfold put, GetTypes. intros H.
  destruct (heap s !! p) as [pk|]; simpl in H; [|discriminate].
  destruct (types pk) as [t|] eqn:Et; simpl in H; [|discriminate].
  injection H as <-. eauto.
Qed.

Lemma grows_put p s s' : put p s = Some s' → grows s s'.
Proof.
  intros H. destruct (put_inv _ _ _ H) as (pk & t & _ & _ & ->).
  split; [apply heap_extends_refl|]. split.
  - simpl. rewrite dom_insert. set_solver.
  - exists [EvMapWrite (types_Path t)]. split; [done|].
    rewrite list_elem_of_singleton. done.
Qed.

(** [recursiveAdd] never removes a unit or a registered path, and never
    takes the writer lock. *)
Lemma grows_recursiveAdd d :
  ∀ parent s s', recursiveAdd d parent s = Some s' → grows s s'.
Proof.
  induction d as [d IHimps] using Package_nested_ind.
  intros parent s s'. rewrite recursiveAdd_unfold.
  pose proof (grows_getGlobalPackage (PkgPath d) s) as G1.
  destruct (getGlobalPackage (PkgPath d) s) as [[gp|] s1]; simpl in G1.
  - destruct parent as [par|]; intros [= <-]; [|done].
    eapply grows_trans; [exact G1 | apply grows_addImport].
  - pose proof (grows_newPackage d s1) as G2.
    destruct (newPackage d s1) as [p s2]; simpl in G2.
    assert (Hloop : ∀ ips, Forall (λ e, ∀ parent s s',
                recursiveAdd e.2 parent s = Some s' → grows s s') ips →
              ∀ a b, range_imports p ips a = Some b → grows a b).
    { induction ips as [|[k ip] rest IHrest]; intros HF a b; simpl.
      - intros [= <-]. apply grows_refl.
      - inversion HF as [|? ? Hip Hrest]; subst. simpl in Hip.
        destruct (recursiveAdd ip (Some p) a) as [a'|] eqn:Ea; simpl; [|done].
        intros Hb. eapply grows_trans; [eapply Hip; exact Ea | eauto]. }
    destruct (range_imports p (Imports d) s2) as [s3|] eqn:E3; simpl; [|done].
    destruct (put p s3) as [s4|] eqn:E4; simpl; [|done].
    assert (G : grows s s4).
    { eapply grows_trans; [exact G1|]. eapply grows_trans; [exact G2|].
      eapply grows_trans; [eapply Hloop; eauto | eapply grows_put; eauto]. }
    destruct parent as [par|]; intros [= <-]; [|done].
    eapply grows_trans; [exact G | apply grows_addImport].
Qed.

(** No call of [Add] ever takes the writer lock. *)
Lemma Add_never_locks d s s' :
  Add d s = Some s' →
  ∃ t, trace s' = trace s ++ t ∧ EvLock ∉ t.
Proof. intros H. by destruct (grows_recursiveAdd d None s s' H) as (_ & _ & ?). Qed.

(** X8: a root whose type information carries its own import path is
    registered under that path once [Add] has returned. *)
Lemma Add_registers_root d s s' :
  Types d = Some {| types_Path := PkgPath d |} →
  Add d s = Some s' →
  is_Some (pathMap s' !! PkgPath d).
Proof.
  intros HT. unfold Add. rewrite recursiveAdd_unfold.
  destruct (getGlobalPackage (PkgPath d) s) as [[gp|] s1] eqn:E1.
  - intros [= <-]. unfold getGlobalPackage in E1. injection E1 as E1 <-.
    simpl. rewrite E1. eauto.
  - destruct (newPackage d s1) as [p s2] eqn:E2.
    destruct (range_imports p (Imports d) s2) as [s3|] eqn:E3; simpl; [|done].
    destruct (put p s3) as [s4|] eqn:E4; simpl; [|done].
    intros [= <-].
    assert (G : grows s2 s3).
    { clear -E3. revert s2 s3 E3.
      induction (Imports d) as [|[k ip] rest IH]; intros a b; simpl.
      - intros [= <-]. apply grows_refl.
      - destruct (recursiveAdd ip (Some p) a) as [a'|] eqn:Ea; simpl; [|done].
        intros Hb. eapply grows_trans; [eapply grows_recursiveAdd; eauto|eauto]. }
    destruct G as (Hheap & _).
    unfold newPackage in E2. injection E2 as <- <-.
    destruct (Hheap (length (heap s1)) _ (list_lookup_middle _ [] _ _ eq_refl))
      as (pk' & Hpk' & Hty & _).
    destruct (put_inv _ _ _ E4) as (pk & t & Hpk & Ht & ->).
    simpl in Hty. assert (pk = pk') by congruence. subst pk'.
    rewrite Hty, HT in Ht. injection Ht as <-. simpl.
    rewrite lookup_insert_eq. eauto.
Qed.

(** With the root already registered, [Add] changes neither the map nor
    any unit. *)
Lemma Add_registered_noop d s :
  is_Some (pathMap s !! PkgPath d) →
  ∃ s', Add d s = Some s' ∧ pathMap s' = pathMap s ∧ heap s' = heap s.
Proof.
  intros [gp Hgp]. unfold Add. rewrite recursiveAdd_unfold.
  unfold getGlobalPackage. rewrite Hgp. eauto.
Qed.

(** C9: when a first [Add] of a root descriptor has registered the root
    (and thereby its transitive imports), a second [Add] of the same
    descriptor returns with the cache's mapping and every unit, import
    edges included, exactly as they were. *)
Theorem Add_twice_unchanged d s s1 :
  Add d s = Some s1 →
  is_Some (pathMap s1 !! PkgPath d) →
  ∃ s2, Add d s1 = Some s2 ∧ pathMap s2 = pathMap s1 ∧ heap s2 = heap s1.
Proof. intros _ Hreg. by apply Add_registered_noop. Qed.

Lemma Add_twice_unchanged_witness :
  Add main_descriptor NewCache = Some two_units ∧
  is_Some (pathMap two_units !! PkgPath main_descriptor) ∧
  ∃ s2, Add main_descriptor two_units = Some s2 ∧
    pathMap s2 = pathMap two_units ∧ heap s2 = heap two_units.
Proof.
  assert (E : Add main_descriptor NewCache = Some two_units)
    by (vm_compute; reflexivity).
  assert (R : is_Some (pathMap two_units !! PkgPath main_descriptor))
    by (eexists; vm_compute; reflexivity).
  exact (conj E (conj R (Add_twice_unchanged _ _ _ E R))).
Defined.

(** *** Walk *)

Lemma walk_range_stops {V} (walkFunc : WalkFunc V) order :
  ∀ v k,
    answers walkFunc order v !! k = Some true →
    (∀ j, j < k → answers walkFunc order v !! j = Some false) →
    (walk_range walkFunc order v).1 = unit_of <$> take (S k) order.
Proof.
  induction order as [|[key gp] rest IH]; intros v k Hk Hbefore.
  - discriminate Hk.
  - simpl in *. destruct (walkFunc (gp_pkg gp) v) as [stop v1].
    destruct k as [|k].
    + injection Hk as ->. rewrite take_0. reflexivity.
    + pose proof (Hbefore 0 ltac:(lia)) as H0. injection H0 as ->.
      specialize (IH v1 k Hk).
      destruct (walk_range walkFunc rest v1) as [seen v2]. simpl in *.
      rewrite IH; [reflexivity|].
      intros j Hj. apply (Hbefore (S j)). lia.
Qed.

Lemma walk_range_all {V} (walkFunc : WalkFunc V) order :
  ∀ v,
    (∀ k, answers walkFunc order v !! k ≠ Some true) →
    (walk_range walkFunc order v).1 = unit_of <$> order.
Proof.
  induction order as [|[key gp] rest IH]; intros v Hnever; [reflexivity|].
  simpl in *. destruct (walkFunc (gp_pkg gp) v) as [stop v1].
  destruct stop; [by destruct (Hnever 0)|].
  specialize (IH v1 (λ k, Hnever (S k))).
  destruct (walk_range walkFunc rest v1) as [seen v2]. simpl in *.
  by rewrite IH.
Qed.

Lemma Walk_seen {V} (walkFunc : WalkFunc V) order v s :
  (Walk walkFunc order v s).1.1 = (walk_range walkFunc order v).1.
Proof.
  unfold Walk, walk. by destruct (walk_range walkFunc order v).
Qed.

(** C8: let [order] be the order in which the map yields its entries.
    If the visitor answers true at the [k]-th call (counting from 0, all
    earlier calls having answered false), [Walk] has run the visitor on
    the first [k+1] entries and on nothing else; if it never answers
    true, [Walk] has run it on every unit of the cache exactly once. *)
Theorem Walk_early_exit {V} (walkFunc : WalkFunc V) order v s :
  order ≡ₚ map_to_list (pathMap s) →
  (∀ k, answers walkFunc order v !! k = Some true →
        (∀ j, j < k → answers walkFunc order v !! j = Some false) →
        (Walk walkFunc order v s).1.1 = unit_of <$> take (S k) order) ∧
  ((∀ k, answers walkFunc order v !! k ≠ Some true) →
        (Walk walkFunc order v s).1.1 ≡ₚ unit_of <$> map_to_list (pathMap s)).
Proof.
  intros Hperm. rewrite Walk_seen. split.
  - intros k Hk Hbefore. by apply walk_range_stops.
  - intros Hnever. rewrite walk_range_all by done. by rewrite Hperm.
Qed.

Lemma Walk_early_exit_witness :
  two_units_order ≡ₚ map_to_list (pathMap two_units) ∧
  (Walk (stop_at 0) two_units_order 0 two_units).1.1 = [0] ∧
  (Walk never_stop two_units_order 0 two_units).1.1
    ≡ₚ unit_of <$> map_to_list (pathMap two_units).
Proof.
  assert (Hperm : two_units_order ≡ₚ map_to_list (pathMap two_units)).
  { replace (map_to_list (pathMap two_units)) with two_units_order
      by (vm_compute; reflexivity).
    reflexivity. }
  split; [exact Hperm|]. split.
  - apply (proj1 (Walk_early_exit (stop_at 0) two_units_order 0 two_units
                    Hperm) 0).
    + reflexivity.
    + intros j Hj. lia.
  - apply (proj2 (Walk_early_exit never_stop two_units_order 0 two_units
                    Hperm)).
    intros [|[|k]]; discriminate.
Defined.

End CacheProofs.

(* ===================================================================== *)
(** ** Part V: properties of the classifier *)
(* ===================================================================== *)

Module ClassifierProofs.

Import Source SourceExamples.

(** *** Identifiers without a resolved object *)

(** C2 (as the code has it): for an identifier without resolved object,
    a selector parent gives [expression] at the parent, the file root
    gives [package-reference], an import specifier gives
    [package-reference] at the parent, and a field parent gives no
    verdict at the identifier: the classifier ascends and goes on from
    the field.  Every other parent gives [unknown]. *)
Theorem no_object_ident_by_parent pkg id parent rest fuel :
  ObjectOf (GetTypesInfo pkg) id = None →
  findInterestingNode (S fuel) pkg (IdentNode id :: parent :: rest) =
    match parent with
    | SelectorExpr _ => Some (Returned (parent :: rest) actionExpr)
    | File => Some (Returned (IdentNode id :: parent :: rest) actionPackage)
    | SpecNode ImportSpec => Some (Returned (parent :: rest) actionPackage)
    | Field _ => findInterestingNode fuel pkg (parent :: rest)
    | _ => Some (Returned (IdentNode id :: parent :: rest) actionUnknown)
    end.
Proof.
  intros Hobj. cbn [findInterestingNode loop_body]. rewrite Hobj.
  destruct parent; try reflexivity.
  match goal with sp : Spec |- _ => destruct sp end; reflexivity.
Qed.

Lemma no_object_ident_by_parent_witness :
  ObjectOf (GetTypesInfo unanalyzed) x_id = None ∧
  findInterestingNode 1 unanalyzed [IdentNode x_id; SelectorExpr x_id; File]
    = Some (Returned [SelectorExpr x_id; File] actionExpr).
Proof.
  split; [reflexivity|].
  exact (no_object_ident_by_parent unanalyzed x_id (SelectorExpr x_id) [File]
           0 eq_refl).
Defined.

(** C2 fails for a field parent: for [x] in [struct { x, y int }] of an
    unanalysed file the classifier reports [type] at the struct type,
    and never [unknown]. *)
Lemma no_object_field_parent_not_unknown :
  ObjectOf (GetTypesInfo unanalyzed) x_id = None ∧
  struct_pair_path !! 1 = Some (Field [x_id; y_id]) ∧
  findInterestingNode 4 unanalyzed struct_pair_path
    = Some (Returned (drop 3 struct_pair_path) actionType) ∧
  ∀ fuel p,
    findInterestingNode fuel unanalyzed struct_pair_path
      ≠ Some (Returned p actionUnknown).
Proof.
  repeat split; try reflexivity.
  intros fuel p. do 4 (destruct fuel as [|fuel]; [discriminate|]).
  discriminate.
Qed.

(** *** Running out of ancestors *)

(** C3 (as the code has it): when the loop uses up the chain without a
    verdict, the call returns the nil path with category [unknown]; it
    does so for every sufficient amount of fuel, and no failure is
    raised. *)
Theorem exhausted_chain_returns_unknown pkg path :
  exhausts pkg path →
  ∃ fuel0, ∀ fuel, fuel0 ≤ fuel →
    findInterestingNode fuel pkg path = Some (Returned [] actionUnknown).
Proof.
  induction 1 as [|n path path' Hstep _ [fuel0 IH]].
  - exists 1. intros [|fuel] Hle; [lia | reflexivity].
  - exists (S fuel0). intros [|fuel] Hle; [lia|].
    cbn [findInterestingNode]. rewrite Hstep. apply IH. lia.
Qed.

Lemma exhausts_ellipsis : exhausts unanalyzed [Ellipsis].
Proof. eapply exhausts_step; [reflexivity | constructor]. Qed.

Lemma exhausted_chain_returns_unknown_witness :
  exhausts unanalyzed [Ellipsis] ∧
  ∃ fuel0, ∀ fuel, fuel0 ≤ fuel →
    findInterestingNode fuel unanalyzed [Ellipsis]
      = Some (Returned [] actionUnknown).
Proof.
  split; [exact exhausts_ellipsis|].
  exact (exhausted_chain_returns_unknown unanalyzed [Ellipsis]
           exhausts_ellipsis).
Defined.

(** C3 fails: the chain [[Ellipsis]] is used up without a verdict, and
    the call returns [(nil, unknown)] instead of raising a failure. *)
Lemma exhausted_chain_not_reported :
  exhausts unanalyzed [Ellipsis] ∧
  findInterestingNode 2 unanalyzed [Ellipsis]
    = Some (Returned [] actionUnknown) ∧
  ∀ fuel, findInterestingNode fuel unanalyzed [Ellipsis] ≠ Some Panicked.
Proof.
  split; [exact exhausts_ellipsis|]. split; [reflexivity|].
  intros fuel. do 2 (destruct fuel as [|fuel]; [discriminate|]). discriminate.
Qed.

(** *** Variables and the struct-member tie-break *)

Lemma well_formed_chain_cons n tl :
  well_formed_chain (n :: tl) = true → n ≠ File →
  tl ≠ [] ∧ well_formed_chain tl = true.
Proof.
  unfold well_formed_chain. intros Hwf Hn.
  apply andb_true_iff in Hwf as [Hend Hfields].
  destruct tl as [|m tl].
  - destruct n; try discriminate. congruence.
  - split; [done|]. apply andb_true_iff. split.
    + exact Hend.
    + destruct n; try exact Hfields. simpl in Hfields.
      destruct m; try discriminate. exact Hfields.
Qed.

Lemma well_formed_field_parent Names tl :
  well_formed_chain (Field Names :: tl) = true →
  ∃ up, tl = FieldList :: up ∧ up ≠ [] ∧ well_formed_chain up = true.
Proof.
  intros Hwf.
  pose proof (well_formed_chain_cons _ _ Hwf ltac:(discriminate)) as [_ Htl].
  unfold well_formed_chain in Hwf. apply andb_true_iff in Hwf as [_ Hfields].
  simpl in Hfields. destruct tl as [|m up]; [discriminate|].
  destruct m; try discriminate. exists up. split; [done|].
  exact (well_formed_chain_cons _ _ Htl ltac:(discriminate)).
Qed.

(** C5: on a well-formed ancestor chain, an identifier resolved to a
    variable is classified [expression] at the identifier, unless its
    ancestors are field, field list, struct type: then the verdict is
    [type] at the struct type, three ancestors up. *)
Theorem var_ident_classification pkg id obj rest fuel :
  ObjectOf (GetTypesInfo pkg) id = Some obj →
  obj_kind obj = Var →
  well_formed_chain (IdentNode id :: rest) = true →
  findInterestingNode (S fuel) pkg (IdentNode id :: rest) =
    match rest with
    | Field _ :: FieldList :: StructType :: up =>
        Some (Returned (StructType :: up) actionType)
    | _ => Some (Returned (IdentNode id :: rest) actionExpr)
    end.
Proof.
  intros Hobj Hkind Hwf. cbn [findInterestingNode loop_body].
  rewrite Hobj, Hkind.
  destruct (well_formed_chain_cons _ _ Hwf ltac:(discriminate)) as [Hne Hrest].
  destruct rest as [|parent rest]; [done|].
  destruct parent; try reflexivity.
  destruct (well_formed_field_parent _ _ Hrest) as (up & -> & Hup & _).
  destruct up as [|top up]; [done|].
  destruct top; reflexivity.
Qed.

Lemma var_ident_classification_witness :
  ObjectOf (GetTypesInfo analyzed) x_id = Some x_var ∧
  obj_kind x_var = Var ∧
  well_formed_chain struct_member_path = true ∧
  findInterestingNode 1 analyzed struct_member_path
    = Some (Returned (drop 3 struct_member_path) actionType).
Proof.
  do 3 (split; [reflexivity|]).
  exact (var_ident_classification analyzed x_id x_var
           (drop 1 struct_member_path) 0 eq_refl eq_refl eq_refl).
Defined.

(** *** Panics and termination on well-formed chains *)

(** One pass of the loop on a well-formed chain does not panic, and what
    it hands to the next pass is a well-formed chain again. *)
Lemma loop_body_well_formed pkg n tl :
  well_formed_chain (n :: tl) = true →
  loop_body pkg n (n :: tl) ≠ Panic ∧
  ∀ path', loop_body pkg n (n :: tl) = Continue path' →
    well_formed_chain path' = true.
Proof.
  intros Hwf.
  assert (Hup : n ≠ File → tl ≠ [] ∧ well_formed_chain tl = true)
    by (apply well_formed_chain_cons; exact Hwf).
  assert (Hdown : ∀ m, (∀ Names, m ≠ Field Names) →
            well_formed_chain (m :: n :: tl) = true).
  { intros m Hm. unfold well_formed_chain in *.
    apply andb_true_iff in Hwf as [Hend Hfields].
    apply andb_true_iff. split; [exact Hend|].
    destruct m; try exact Hfields. by destruct (Hm Names). }
  destruct n; cbn [loop_body ascend drop];
    try (split; [discriminate | intros path' [= <-]];
         first [ apply Hdown; discriminate | apply Hup; discriminate ]);
    try (split; [discriminate | discriminate]).
  - (* GenDecl *)
    destruct Specs as [|sp [|? ?]]; split; try discriminate.
    intros path' [= <-]. apply Hdown. discriminate.
  - (* a Spec *)
    destruct s as [|Names|Name].
    + split; discriminate.
    + destruct Names as [|a [|? ?]]; split; try discriminate.
      intros path' [= <-]. apply Hdown. discriminate.
    + split; [discriminate|]. intros path' [= <-]. apply Hdown. discriminate.
  - (* Field *)
    destruct Names as [|a [|? ?]]; (split; [discriminate|]);
      intros path' [= <-];
      first [ apply Hdown; discriminate | apply Hup; discriminate ].
  - (* BasicLit *)
    destruct (Hup ltac:(discriminate)) as [Hne _].
    destruct tl as [|m tl]; [done|]. simpl.
    destruct m; try (split; discriminate).
    destruct s; split; discriminate.
  - (* SelectorExpr *)
    destruct (map_index _ _); split; try discriminate.
    intros path' [= <-]. apply Hdown. discriminate.
  - (* Ident *)
    destruct (Hup ltac:(discriminate)) as [Hne Htl].
    destruct tl as [|m tl]; [done|].
    destruct (ObjectOf _ _) as [obj|].
    + destruct (obj_kind obj); try (split; discriminate).
      * (* Var *)
        unfold var_case. simpl.
        destruct m; try (split; discriminate).
        destruct (well_formed_field_parent _ _ Htl) as (up & -> & Hupne & _).
        destruct up as [|top up]; [done|]. simpl.
        destruct top; split; discriminate.
      * (* Builtin *)
        split; [discriminate|]. intros path' [= <-]. exact Htl.
    + unfold no_object_case. simpl.
      destruct m; try (split; discriminate).
      * destruct s; split; discriminate.
      * split; [discriminate|]. intros path' [= <-]. exact Htl.
  - (* StarExpr *)
    destruct (Types_IsType _ _); split; discriminate.
Qed.

(** X9: no index into the path and no type assertion fails on a
    well-formed chain, however long the loop runs. *)
Lemma findInterestingNode_no_panic pkg fuel :
  ∀ path, well_formed_chain path = true →
    findInterestingNode fuel pkg path ≠ Some Panicked.
Proof.
  induction fuel as [|fuel IH]; intros path Hwf; [discriminate|].
  destruct path as [|n tl]; [discriminate|].
  cbn [findInterestingNode].
  destruct (loop_body_well_formed pkg n tl Hwf) as [Hnp Hnext].
  destruct (loop_body pkg n (n :: tl)) as [p a|p|]; [discriminate| |done].
  apply IH, Hnext. reflexivity.
Qed.

(** X21: a well-formed chain is never used up: the file root at its end
    gives a verdict, so the return after the loop is not reached. *)
Lemma well_formed_never_exhausts pkg path :
  exhausts pkg path → well_formed_chain path = false.
Proof.
  induction 1 as [|n path path' Hstep _ IH]; [reflexivity|].
  destruct (well_formed_chain (n :: path)) eqn:Hwf; [|reflexivity].
  destruct (loop_body_well_formed pkg n path Hwf) as [_ Hnext].
  rewrite (Hnext _ Hstep) in IH. discriminate.
Qed.

(** An identifier without object that is the sole name of its field
    sends the loop round in circles: the identifier ascends to the
    field, the field descends to its sole name. *)
Lemma sole_field_name_cycle pkg id rest :
  ObjectOf (GetTypesInfo pkg) id = None →
  ∀ fuel,
    findInterestingNode fuel pkg (IdentNode id :: Field [id] :: rest) = None ∧
    findInterestingNode fuel pkg (Field [id] :: rest) = None.
Proof.
  intros Hobj. induction fuel as [|fuel [IH1 IH2]]; [done|].
  cbn [findInterestingNode loop_body]. rewrite Hobj. simpl. done.
Qed.

(** A built-in reached through a selector does the same: the selector
    descends to the selected name, the built-in ascends to the selector. *)
Lemma selected_builtin_cycle pkg sel obj rest :
  ObjectOf (GetTypesInfo pkg) sel = Some obj →
  map_index (Uses (GetTypesInfo pkg)) (ident_ptr sel) = Some obj →
  obj_kind obj = Builtin →
  ∀ fuel,
    findInterestingNode fuel pkg (IdentNode sel :: SelectorExpr sel :: rest)
      = None ∧
    findInterestingNode fuel pkg (SelectorExpr sel :: rest) = None.
Proof.
  intros Hobj Huse Hkind. induction fuel as [|fuel [IH1 IH2]]; [done|].
  cbn [findInterestingNode loop_body]. rewrite Hobj, Huse, Hkind. simpl. done.
Qed.

(** C10: two well-formed chains ending at the file root on which
    [findInterestingNode] never returns, whatever the fuel: the
    parameter name [x] of [func f(x int)] in a file that was not
    analysed, and the name [Sizeof] of a call [unsafe.Sizeof(v)] in
    analysed code. *)
Theorem findInterestingNode_loops :
  (well_formed_chain param_name_path = true ∧
   ObjectOf (GetTypesInfo unanalyzed) x_id = None ∧
   ∀ fuel, findInterestingNode fuel unanalyzed param_name_path = None) ∧
  (well_formed_chain unsafe_Sizeof_path = true ∧
   ∀ fuel, findInterestingNode fuel uses_unsafe unsafe_Sizeof_path = None).
Proof.
  split; (split; [reflexivity|]).
  - split; [reflexivity|]. intros fuel.
    apply (sole_field_name_cycle unanalyzed x_id). reflexivity.
  - intros fuel.
    apply (selected_builtin_cycle uses_unsafe Sizeof_id Sizeof_builtin);
      reflexivity.
Qed.

(** *** Where the classifier does terminate *)

Lemma findInterestingNode_continue pkg n tl path fuel :
  loop_body pkg n (n :: tl) = Continue path →
  findInterestingNode (S fuel) pkg (n :: tl) = findInterestingNode fuel pkg path.
Proof. intros H. cbn [findInterestingNode]. by rewrite H. Qed.

Lemma findInterestingNode_return pkg n tl p a fuel :
  loop_body pkg n (n :: tl) = Return p a →
  findInterestingNode (S fuel) pkg (n :: tl) = Some (Returned p a).
Proof. intros H. cbn [findInterestingNode]. by rewrite H. Qed.

Lemma well_formed_chain_push m n tl :
  is_field m = false →
  well_formed_chain (n :: tl) = true →
  well_formed_chain (m :: n :: tl) = true.
Proof.
  unfold well_formed_chain. intros Hm Hwf.
  apply andb_true_iff in Hwf as [Hend Hfields].
  apply andb_true_iff. split; [exact Hend|].
  destruct m; try exact Hfields. discriminate.
Qed.

(** A settling identifier the loop has descended to ends the call. *)
Lemma settled_ident_returns pkg x n tl :
  settles pkg x (is_field n) = true →
  well_formed_chain (n :: tl) = true →
  ∃ p a, loop_body pkg (IdentNode x) (IdentNode x :: n :: tl) = Return p a.
Proof.
  unfold settles. intros Hs Hwf. cbn [loop_body].
  destruct (ObjectOf (GetTypesInfo pkg) x) as [obj|].
  - destruct (obj_kind obj); try discriminate; try (by eexists _, _).
    unfold var_case. simpl. destruct n; try (by eexists _, _).
    destruct (well_formed_field_parent _ _ Hwf) as (up & -> & Hne & _).
    destruct up as [|top up]; [done|]. simpl. destruct top; by eexists _, _.
  - unfold no_object_case. simpl.
    destruct n; try discriminate; try (by eexists _, _).
    destruct s; by eexists _, _.
Qed.

Lemma descend_to_settled pkg x n tl :
  loop_body pkg n (n :: tl) = Continue (IdentNode x :: n :: tl) →
  settles pkg x (is_field n) = true →
  well_formed_chain (n :: tl) = true →
  ∃ fuel p a, findInterestingNode fuel pkg (n :: tl) = Some (Returned p a).
Proof.
  intros Hstep Hs Hwf.
  destruct (settled_ident_returns pkg x n tl Hs Hwf) as (p & a & Hret).
  exists 2, p, a. cbn [findInterestingNode]. rewrite Hstep, Hret. reflexivity.
Qed.

(** X10: on a well-formed chain all of whose descents settle, the
    classifier returns a verdict. *)
Lemma findInterestingNode_terminates pkg path :
  well_formed_chain path = true →
  forallb (descends_safely pkg) path = true →
  ∃ fuel p a, findInterestingNode fuel pkg path = Some (Returned p a).
Proof.
  induction path as [|n tl IH]; [discriminate|].
  intros Hwf Hsafe. simpl in Hsafe.
  apply andb_true_iff in Hsafe as [Hn Htl].
  assert (Hascend : n ≠ File → loop_body pkg n (n :: tl) = Continue tl →
            ∃ fuel p a, findInterestingNode fuel pkg (n :: tl)
                          = Some (Returned p a)).
  { intros HnF Hstep.
    destruct (well_formed_chain_cons _ _ Hwf HnF) as [_ Hwf'].
    destruct (IH Hwf' Htl) as (fuel & p & a & H).
    exists (S fuel), p, a. cbn [findInterestingNode]. rewrite Hstep. exact H. }
  assert (Hreturn : ∀ p a, loop_body pkg n (n :: tl) = Return p a →
            ∃ fuel p a, findInterestingNode fuel pkg (n :: tl)
                          = Some (Returned p a)).
  { intros p a Hstep. exists 1, p, a. cbn [findInterestingNode].
    rewrite Hstep. reflexivity. }
  destruct n;
    try (eapply Hreturn; reflexivity);
    try (apply Hascend; [discriminate | reflexivity]).
  - (* GenDecl *)
    destruct Specs as [|sp [|? ?]]; try (eapply Hreturn; reflexivity).
    pose proof (well_formed_chain_push (SpecNode sp) _ _ eq_refl Hwf) as Hwf2.
    destruct sp as [|Names|Name].
    + exists 2, (SpecNode ImportSpec :: GenDecl [ImportSpec] :: tl),
        actionPackage. reflexivity.
    + destruct Names as [|x [|? ?]];
        try (by exists 2; eexists _, _).
      destruct (settled_ident_returns pkg x (SpecNode (ValueSpec [x])) _
                  Hn Hwf2) as (p & a & Hret).
      exists 3, p, a.
      do 2 (erewrite findInterestingNode_continue by reflexivity).
      by apply findInterestingNode_return.
    + destruct (settled_ident_returns pkg Name (SpecNode (TypeSpec Name)) _
                  Hn Hwf2) as (p & a & Hret).
      exists 3, p, a.
      do 2 (erewrite findInterestingNode_continue by reflexivity).
      by apply findInterestingNode_return.
  - (* FuncDecl *)
    eapply descend_to_settled; [reflexivity | exact Hn | exact Hwf].
  - (* a Spec *)
    destruct s as [|Names|Name]; try (eapply Hreturn; reflexivity).
    + destruct Names as [|x [|? ?]]; try (eapply Hreturn; reflexivity).
      eapply descend_to_settled; [reflexivity | exact Hn | exact Hwf].
    + eapply descend_to_settled; [reflexivity | exact Hn | exact Hwf].
  - (* Field *)
    destruct Names as [|x [|? ?]];
      try (apply Hascend; [discriminate | reflexivity]).
    eapply descend_to_settled; [reflexivity | exact Hn | exact Hwf].
  - (* BasicLit *)
    destruct (well_formed_chain_cons _ _ Hwf ltac:(discriminate)) as [Hne _].
    destruct tl as [|m tl]; [done|].
    destruct m; try (eapply Hreturn; reflexivity).
    destruct s; eapply Hreturn; reflexivity.
  - (* SelectorExpr *)
    simpl in Hn.
    destruct (map_index (Uses (GetTypesInfo pkg)) (ident_ptr Sel)) eqn:Huse.
    + eapply descend_to_settled; [|exact Hn | exact Hwf].
      cbn [loop_body]. rewrite Huse. reflexivity.
    + eapply Hreturn. cbn [loop_body]. rewrite Huse. reflexivity.
  - (* Ident *)
    destruct (well_formed_chain_cons _ _ Hwf ltac:(discriminate)) as [Hne Hwf'].
    destruct tl as [|m tl]; [done|].
    destruct (ObjectOf (GetTypesInfo pkg) n) as [obj|] eqn:Hobj.
    + destruct (obj_kind obj) eqn:Hkind;
        try (eapply Hreturn; cbn [loop_body]; rewrite Hobj, Hkind; reflexivity).
      * (* Var *)
        destruct (settled_ident_returns pkg n m tl) as (p & a & Hret);
          [unfold settles; rewrite Hobj, Hkind; reflexivity | exact Hwf' |].
        eapply Hreturn. exact Hret.
      * (* Builtin *)
        apply Hascend; [discriminate|].
        cbn [loop_body]. rewrite Hobj, Hkind. reflexivity.
    + destruct (is_field m) eqn:Hm.
      * apply Hascend; [discriminate|].
        cbn [loop_body]. rewrite Hobj. destruct m; try discriminate.
        reflexivity.
      * destruct (settled_ident_returns pkg n m tl) as (p & a & Hret);
          [unfold settles; rewrite Hobj, Hm; reflexivity | exact Hwf' |].
        eapply Hreturn. exact Hret.
  - (* StarExpr *)
    destruct (Types_IsType (GetTypesInfo pkg) ptr) eqn:Ht;
      eapply Hreturn; cbn [loop_body]; rewrite Ht; reflexivity.
Qed.

(** A variable that stands alone, without any ancestor, makes the
    unguarded [path[1]] panic: the chain must reach the file root. *)
Lemma var_ident_without_parent_panics :
  findInterestingNode 1 analyzed [IdentNode x_id] = Some Panicked.
Proof. reflexivity. Qed.

End ClassifierProofs.

(* ===================================================================== *)
(** ** Part VI: properties of the resolver *)
(* ===================================================================== *)

Module ResolverProofs.

Import Source SourceExamples.

Section Facts.

Context {FileSet tokenFile : Type}.
Variable fset_File : FileSet → Pos → option tokenFile.
Variable tokenFileContainsPos : option tokenFile → Pos → bool.
Variable PathEnclosingInterval :
  astFile → Pos → Pos → option (list Node) * bool.

#[local] Abbreviation searched := (searched FileSet tokenFile fset_File tokenFileContainsPos).
#[local] Abbreviation range_files :=
  (range_files FileSet tokenFile fset_File tokenFileContainsPos
               PathEnclosingInterval).
#[local] Abbreviation doEnclosingInterval :=
  (doEnclosingInterval FileSet tokenFile fset_File tokenFileContainsPos
                       PathEnclosingInterval).
#[local] Abbreviation getPathNodes :=
  (getPathNodes FileSet tokenFile fset_File tokenFileContainsPos
                PathEnclosingInterval).
#[local] Abbreviation getObjectPathNode :=
  (getObjectPathNode FileSet tokenFile fset_File tokenFileContainsPos
                     PathEnclosingInterval).

Lemma doEnclosingInterval_files pkg fset start end_ :
  doEnclosingInterval pkg fset start end_
    = range_files fset start end_ (files_of pkg).
Proof.
  unfold Source.doEnclosingInterval, files_of.
  destruct pkg as [p|]; [|reflexivity]. simpl.
  destruct (GetSyntax p); reflexivity.
Qed.

Lemma range_files_step fset start end_ f fs :
  range_files fset start end_ (f :: fs) =
    if searched fset start f then
      match PathEnclosingInterval f start end_ with
      | (Some path, exact) => (Some path, exact)
      | (None, _) => range_files fset start end_ fs
      end
    else range_files fset start end_ fs.
Proof.
  cbn [Source.range_files]. unfold Source.searched.
  destruct (bool_decide (file_Pos f = NoPos)); [reflexivity|]. simpl.
  destruct (tokenFileContainsPos _ start); reflexivity.
Qed.

(** Files that are position-invalid or do not contain [start] can be
    struck from the list without changing the result. *)
Lemma range_files_filter fset start end_ fs :
  range_files fset start end_ fs
    = range_files fset start end_
        (filter (λ f, searched fset start f = true) fs).
Proof.
  induction fs as [|f fs IH]; [reflexivity|].
  rewrite filter_cons. destruct (decide _) as [Hs|Hs].
  - rewrite !range_files_step, Hs, <- IH. reflexivity.
  - rewrite range_files_step.
    destruct (searched fset start f); [done|]. exact IH.
Qed.

Lemma range_files_found fset start end_ fs path exact :
  range_files fset start end_ fs = (Some path, exact) →
  ∃ f, f ∈ fs ∧ searched fset start f = true ∧
       PathEnclosingInterval f start end_ = (Some path, exact).
Proof.
  induction fs as [|f fs IH]; [discriminate|].
  rewrite range_files_step.
  destruct (searched fset start f) eqn:Hs.
  - destruct (PathEnclosingInterval f start end_) as [[p|] e] eqn:Hp.
    + intros [= <- <-]. exists f. split; [left|done].
    + intros H. destruct (IH H) as (g & Hg & ?). exists g.
      split; [by right|done].
  - intros H. destruct (IH H) as (g & Hg & ?). exists g.
    split; [by right|done].
Qed.

Lemma range_files_none fset start end_ fs :
  (∀ f, f ∈ fs → searched fset start f = false) →
  range_files fset start end_ fs = (None, false).
Proof.
  induction fs as [|f fs IH]; intros Hno; [reflexivity|].
  rewrite range_files_step, (Hno f) by left.
  apply IH. intros g Hg. apply Hno. by right.
Qed.

Lemma searched_true fset start f :
  searched fset start f = true ↔
  file_Pos f ≠ NoPos ∧
  tokenFileContainsPos (fset_File fset (file_Pos f)) start = true.
Proof.
  unfold Source.searched. rewrite andb_true_iff, negb_true_iff.
  rewrite bool_decide_eq_false. reflexivity.
Qed.

(** C7: the interval search behaves as if the position-invalid files
    and the files not containing the start offset were not there; a
    path it returns comes from a position-valid file that contains the
    start offset; and [getPathNodes] fails with not-found when no such
    file exists and, more generally, whenever the path found is
    empty (otherwise it hands the path back without error). *)
Theorem enclosing_interval_search pkg fset start end_ :
  doEnclosingInterval pkg fset start end_
    = range_files fset start end_
        (filter (λ f, searched fset start f = true) (files_of pkg)) ∧
  (∀ path exact,
      doEnclosingInterval pkg fset start end_ = (Some path, exact) →
      ∃ f, f ∈ files_of pkg ∧ file_Pos f ≠ NoPos ∧
           tokenFileContainsPos (fset_File fset (file_Pos f)) start = true ∧
           PathEnclosingInterval f start end_ = (Some path, exact)) ∧
  ((∀ f, f ∈ files_of pkg → file_Pos f ≠ NoPos →
         tokenFileContainsPos (fset_File fset (file_Pos f)) start = false) →
      getPathNodes pkg fset start end_ = (None, Some (ErrNoNode start))) ∧
  (len (doEnclosingInterval pkg fset start end_).1 = 0 →
      (getPathNodes pkg fset start end_).2 = Some (ErrNoNode start)) ∧
  (len (doEnclosingInterval pkg fset start end_).1 ≠ 0 →
      getPathNodes pkg fset start end_
        = ((doEnclosingInterval pkg fset start end_).1, None)).
Proof.
  split; [|split; [|split; [|split]]].
  - rewrite doEnclosingInterval_files. apply range_files_filter.
  - intros path exact. rewrite doEnclosingInterval_files. intros H.
    destruct (range_files_found _ _ _ _ _ _ H) as (f & Hf & Hs & Hp).
    apply searched_true in Hs as [Hpos Hc]. eauto.
  - intros Hno. unfold Source.getPathNodes, astPathEnclosingInterval.
    rewrite doEnclosingInterval_files, range_files_none; [reflexivity|].
    intros f Hf. destruct (searched fset start f) eqn:Hs; [|done].
    apply searched_true in Hs as [Hpos Hc]. rewrite (Hno f Hf Hpos) in Hc.
    discriminate.
  - intros Hlen. unfold Source.getPathNodes, astPathEnclosingInterval.
    rewrite bool_decide_eq_true_2 by exact Hlen. reflexivity.
  - intros Hlen. unfold Source.getPathNodes, astPathEnclosingInterval.
    rewrite bool_decide_eq_false_2 by exact Hlen. reflexivity.
Qed.

Lemma getPathNodes_empty pkg fset start end_ :
  (∀ f, f ∈ files_of pkg → searched fset start f = false) →
  (getPathNodes pkg fset start end_).1 = None.
Proof.
  intros Hno. unfold Source.getPathNodes, astPathEnclosingInterval.
  rewrite doEnclosingInterval_files, range_files_none by exact Hno.
  reflexivity.
Qed.

(** C6: let the symbol [o] belong to a unit other than [A], so that no
    file of [A] covers its declaration position.  If [A]'s import lookup
    yields [B] for the path of [o]'s unit, and the search of [B] at that
    position ends in the declaring identifier, then [getObjectPathNode]
    called with [A] returns that identifier without error; if the
    lookup yields nothing, the call fails with the missing-import
    error. *)
Theorem declaration_across_import A fset o opkg :
  obj_Pkg o = Some opkg →
  (∀ f, f ∈ files_of (Some A) → searched fset (obj_Pos o) f = false) →
  (∀ B id up exact,
      GetImport A (types_Path opkg) = Some B →
      doEnclosingInterval (Some B) fset (obj_Pos o) (obj_Pos o)
        = (Some (IdentNode id :: up), exact) →
      getObjectPathNode (Some A) fset o
        = Done (Some (IdentNode id :: up), Some id, None)) ∧
  (GetImport A (types_Path opkg) = None →
      getObjectPathNode (Some A) fset o
        = Done (None, None,
                Some (ErrMissingImport (types_Path opkg)
                                       (types_Path (GetTypes A))))).
Proof.
  intros Hpkg Hno.
  pose proof (getPathNodes_empty (Some A) fset (obj_Pos o) (obj_Pos o) Hno)
    as Hfirst.
  split.
  - intros B id up exact HB Hdecl. unfold Source.getObjectPathNode.
    rewrite Hfirst, Hpkg, HB. simpl.
    unfold Source.getPathNodes, astPathEnclosingInterval. rewrite Hdecl.
    reflexivity.
  - intros HB. unfold Source.getObjectPathNode.
    rewrite Hfirst, Hpkg, HB. reflexivity.
Qed.

End Facts.

Lemma enclosing_interval_search_witness :
  doEnclosingInterval (list span) span fset_File_ex contains_ex enclosing_ex
      (Some unit_b) the_fset 150 151
    = range_files (list span) span fset_File_ex contains_ex enclosing_ex
        the_fset 150 151 [F2] ∧
  getPathNodes (list span) span fset_File_ex contains_ex enclosing_ex
      (Some unit_b) the_fset 150 151 = (Some decl_path, None) ∧
  getPathNodes (list span) span fset_File_ex contains_ex enclosing_ex
      (Some unit_b) the_fset 250 251 = (None, Some (ErrNoNode 250)).
Proof.
  pose proof (enclosing_interval_search fset_File_ex contains_ex enclosing_ex
                (Some unit_b) the_fset 150 151) as (Hskip & _ & _ & _ & Hok).
  pose proof (enclosing_interval_search fset_File_ex contains_ex enclosing_ex
                (Some unit_b) the_fset 250 251) as (_ & _ & Hnone & _).
  split; [exact Hskip|]. split.
  - apply Hok. vm_compute. discriminate.
  - apply Hnone. intros f Hf Hpos.
    apply elem_of_cons in Hf as [->|Hf]; [done|].
    apply list_elem_of_singleton in Hf as ->. reflexivity.
Defined.

Lemma declaration_across_import_witness :
  obj_Pkg x_in_b = Some {| types_Path := "b" |} ∧
  (∀ f, f ∈ files_of (Some unit_a) →
        searched (list span) span fset_File_ex contains_ex the_fset
                 (obj_Pos x_in_b) f = false) ∧
  getObjectPathNode (list span) span fset_File_ex contains_ex enclosing_ex
      (Some unit_a) the_fset x_in_b
    = Done (Some decl_path, Some x_id, None).
Proof.
  assert (Hno : ∀ f, f ∈ files_of (Some unit_a) →
            searched (list span) span fset_File_ex contains_ex the_fset
                     (obj_Pos x_in_b) f = false).
  { intros f Hf. apply list_elem_of_singleton in Hf as ->. reflexivity. }
  split; [reflexivity|]. split; [exact Hno|].
  exact (proj1 (declaration_across_import fset_File_ex contains_ex
                  enclosing_ex unit_a the_fset x_in_b _ eq_refl Hno)
           unit_b x_id _ true eq_refl eq_refl).
Defined.

End ResolverProofs.

(* ===================================================================== *)
(** ** Part VII: further properties of the cache *)
(* ===================================================================== *)

Module CacheMore.

Import Cache Examples CacheProofs.

(** *** Reasoning about [recursiveAdd] step by step

    A relation between states that is reflexive and transitive and is
    respected by each of the five primitive steps is respected by the
    loop over the imports and by the whole recursion. *)
Section Steps.

Variable R : state → state → Prop.
Hypothesis R_refl : ∀ s, R s s.
Hypothesis R_trans : ∀ s1 s2 s3, R s1 s2 → R s2 s3 → R s1 s3.
Hypothesis R_lookup : ∀ k s, R s (getGlobalPackage k s).2.
Hypothesis R_new : ∀ d s, R s (newPackage d s).2.
Hypothesis R_import : ∀ p ip s, R s (addImport p ip s).
Hypothesis R_put : ∀ p s s', put p s = Some s' → R s s'.

Lemma range_imports_steps_from p ips :
  Forall (λ e, ∀ parent s s',
            recursiveAdd e.2 parent s = Some s' → R s s') ips →
  ∀ a b, range_imports p ips a = Some b → R a b.
Proof.
  induction ips as [|[k ip] rest IHrest]; intros HF a b; simpl.
  - intros [= <-]. apply R_refl.
  - inversion HF as [|? ? Hip Hrest]; subst. simpl in Hip.
    destruct (recursiveAdd ip (Some p) a) as [a'|] eqn:Ea; simpl; [|done].
    intros Hb. eapply R_trans; [eapply Hip; exact Ea | eauto].
Qed.

Lemma recursiveAdd_steps d :
  ∀ parent s s', recursiveAdd d parent s = Some s' → R s s'.
Proof.
  induction d as [d IHimps] using Package_nested_ind.
  intros parent s s'. rewrite recursiveAdd_unfold.
  pose proof (R_lookup (PkgPath d) s) as G1.
  destruct (getGlobalPackage (PkgPath d) s) as [[gp|] s1]; simpl in G1.
  - destruct parent as [par|]; intros [= <-]; [|done].
    eapply R_trans; [exact G1 | apply R_import].
  - pose proof (R_new d s1) as G2.
    destruct (newPackage d s1) as [p s2]; simpl in G2.
    destruct (range_imports p (Imports d) s2) as [s3|] eqn:E3; simpl; [|done].
    destruct (put p s3) as [s4|] eqn:E4; simpl; [|done].
    assert (G : R s s4).
    { eapply R_trans; [exact G1|]. eapply R_trans; [exact G2|].
      eapply R_trans; [|eapply R_put; eauto].
      eapply range_imports_steps_from; eauto. }
    destruct parent as [par|]; intros [= <-]; [|done].
    eapply R_trans; [exact G | apply R_import].
Qed.

Lemma range_imports_steps p ips :
  ∀ a b, range_imports p ips a = Some b → R a b.
Proof.
  apply range_imports_steps_from, Forall_forall.
  intros e _ parent s s'. apply recursiveAdd_steps.
Qed.

End Steps.

(** *** Units keep their data *)

Lemma same_unit_refl pk : same_unit pk pk.
Proof. by repeat split. Qed.

Lemma same_unit_trans pk1 pk2 pk3 :
  same_unit pk1 pk2 → same_unit pk2 pk3 → same_unit pk1 pk3.
Proof.
  intros (?&?&?&?&?&?) (?&?&?&?&?&?). repeat split; congruence.
Qed.

Lemma heap_keeps_refl h : heap_keeps h h.
Proof. intros a pk H. exists pk. split; [done | apply same_unit_refl]. Qed.

Lemma heap_keeps_trans h1 h2 h3 :
  heap_keeps h1 h2 → heap_keeps h2 h3 → heap_keeps h1 h3.
Proof.
  intros H12 H23 a pk H.
  destruct (H12 a pk H) as (pk2 & H2 & S2).
  destruct (H23 a pk2 H2) as (pk3 & H3 & S3).
  exists pk3. split; [done | by eapply same_unit_trans].
Qed.

Lemma heap_keeps_addImport p ip s :
  heap_keeps (heap s) (heap (addImport p ip s)).
Proof.
  intros a pk H. simpl. destruct (decide (a = p)) as [->|Hne].
  - rewrite list_lookup_alter_eq, H. simpl. eexists. split; [done|].
    by repeat split.
  - rewrite list_lookup_alter_ne by done. exists pk.
    split; [done | apply same_unit_refl].
Qed.

Lemma heap_keeps_newPackage d s :
  heap_keeps (heap s) (heap (newPackage d s).2).
Proof.
  intros a pk H. exists pk. simpl. split; [|apply same_unit_refl].
  rewrite lookup_app_l; [done|]. by eapply lookup_lt_Some.
Qed.

Lemma heap_put p s s' : put p s = Some s' → heap s' = heap s.
Proof. intros H. by destruct (put_inv _ _ _ H) as (pk & t & _ & _ & ->). Qed.

Lemma only_adds_recursiveAdd d parent s s' :
  recursiveAdd d parent s = Some s' → only_adds s s'.
Proof.
  apply (recursiveAdd_steps only_adds); clear.
  - intros s. split; [done | apply heap_keeps_refl].
  - intros s1 s2 s3 [D12 H12] [D23 H23].
    split; [set_solver | by eapply heap_keeps_trans].
  - intros k s. split; [done | apply heap_keeps_refl].
  - intros d s. split; [done | apply heap_keeps_newPackage].
  - intros p ip s. split; [done | apply heap_keeps_addImport].
  - intros p s s' H. destruct (put_inv _ _ _ H) as (pk & t & _ & _ & ->).
    split; [|apply heap_keeps_refl]. simpl. rewrite dom_insert. set_solver.
Qed.

Lemma only_adds_range_imports p ips s s' :
  range_imports p ips s = Some s' → only_adds s s'.
Proof.
  apply (range_imports_steps only_adds); clear.
  - intros s. split; [done | apply heap_keeps_refl].
  - intros s1 s2 s3 [D12 H12] [D23 H23].
    split; [set_solver | by eapply heap_keeps_trans].
  - intros k s. split; [done | apply heap_keeps_refl].
  - intros d s. split; [done | apply heap_keeps_newPackage].
  - intros p' ip s. split; [done | apply heap_keeps_addImport].
  - intros p' s s' H. destruct (put_inv _ _ _ H) as (pk & t & _ & _ & ->).
    split; [|apply heap_keeps_refl]. simpl. rewrite dom_insert. set_solver.
Qed.

(** X1: a unit put into the cache is what [Get] returns for the path of
    its type information; the other paths answer as before, and no unit
    is touched. *)
Theorem Put_then_Get p s s' :
  Put p s = Some s' →
  ∃ pk t, heap s !! p = Some pk ∧ types pk = Some t ∧
    (Get (types_Path t) s').1 = Some p ∧
    (∀ k, k ≠ types_Path t → (Get k s').1 = (Get k s).1) ∧
    heap s' = heap s.
Proof.
  unfold Put. intros H.
  destruct (put p (emit EvLock s)) as [s1|] eqn:E; simpl in H; [|done].
  injection H as <-.
  destruct (put_inv _ _ _ E) as (pk & t & Hpk & Ht & ->).
  exists pk, t. simpl in *. split; [done|]. split; [done|].
  split; [by rewrite lookup_insert_eq|]. split; [|done].
  intros k Hk. by rewrite lookup_insert_ne.
Qed.

Lemma Put_then_Get_witness :
  ∃ s', Put 1 two_units = Some s' ∧
    ∃ pk t, heap two_units !! 1 = Some pk ∧ types pk = Some t ∧
      (Get (types_Path t) s').1 = Some 1 ∧
      (∀ k, k ≠ types_Path t → (Get k s').1 = (Get k two_units).1) ∧
      heap s' = heap two_units.
Proof.
  eexists. split; [vm_compute; reflexivity|].
  apply (Put_then_Get 1 two_units). vm_compute. reflexivity.
Defined.

(** X2: [Add] only adds.  Every path registered before is registered
    after, and every unit allocated before is still there with the same
    identifier, path, files, diagnostics and type information: nothing
    but import edges changes on an existing unit. *)
Theorem Add_only_adds d s s' :
  Add d s = Some s' →
  dom (pathMap s) ⊆ dom (pathMap s') ∧
  heap_keeps (heap s) (heap s') ∧
  length (heap s) ≤ length (heap s').
Proof.
  intros H. destruct (only_adds_recursiveAdd d None s s' H) as [Hdom Hkeep].
  split; [done|]. split; [done|].
  destruct (decide (length (heap s) ≤ length (heap s'))) as [|Hlt]; [done|].
  destruct (lookup_lt_is_Some_2 (heap s) (length (heap s'))) as [pk Hpk];
    [lia|].
  destruct (Hkeep _ _ Hpk) as (pk' & Hpk' & _).
  apply lookup_lt_Some in Hpk'. lia.
Qed.

Lemma Add_only_adds_witness :
  ∃ s', Add app_descriptor two_units = Some s' ∧
    dom (pathMap two_units) ⊆ dom (pathMap s') ∧
    heap_keeps (heap two_units) (heap s') ∧
    length (heap two_units) ≤ length (heap s').
Proof.
  eexists. split; [vm_compute; reflexivity|].
  apply (Add_only_adds app_descriptor two_units). vm_compute. reflexivity.
Defined.

(** X3: a root that is not yet registered and was loaded without type
    information makes [Add] panic: the nil [Types] is dereferenced when
    the new unit is put into the map. *)
Theorem Add_untyped_panics d s :
  pathMap s !! PkgPath d = None →
  Types d = None →
  Add d s = None.
Proof.
  intros Hfresh Hty. unfold Add. rewrite recursiveAdd_unfold.
  unfold getGlobalPackage. rewrite Hfresh.
  destruct (newPackage d _) as [p s2] eqn:E2.
  destruct (range_imports p (Imports d) s2) as [s3|] eqn:E3; simpl; [|done].
  destruct (only_adds_range_imports _ _ _ _ E3) as [_ Hkeep].
  unfold newPackage in E2. injection E2 as <- <-. simpl in Hkeep.
  destruct (Hkeep (length (heap s)) _ (list_lookup_middle _ [] _ _ eq_refl))
    as (pk' & Hpk' & _ & _ & _ & _ & Hty' & _).
  simpl in Hty'. unfold put, GetTypes. simpl in Hpk'. rewrite Hpk'. simpl.
  rewrite Hty', Hty. reflexivity.
Qed.

Lemma Add_untyped_panics_witness :
  pathMap NewCache !! PkgPath untyped_descriptor = None ∧
  Types untyped_descriptor = None ∧
  Add untyped_descriptor NewCache = None.
Proof.
  split; [reflexivity|]. split; [reflexivity|].
  exact (Add_untyped_panics untyped_descriptor NewCache eq_refl eq_refl).
Defined.

Lemma typed_unfold d :
  typed d = match Types d with
            | Some _ => all_typed (Imports d)
            | None => false
            end.
Proof.
  destruct d as [i pp sx e t ti imps]. cbn [typed Types Imports].
  destruct t; [|reflexivity].
  induction imps as [|[k ip] rest IH]; [reflexivity|].
  cbn [all_typed]. by rewrite <- IH.
Qed.

Lemma recursiveAdd_typed_succeeds d :
  typed d = true → ∀ parent s, is_Some (recursiveAdd d parent s).
Proof.
  induction d as [d IHimps] using Package_nested_ind.
  rewrite typed_unfold. destruct (Types d) as [t|] eqn:Ht; [|done].
  intros Hall parent s. rewrite recursiveAdd_unfold.
  destruct (getGlobalPackage (PkgPath d) s) as [[gp|] s1].
  { destruct parent; eauto. }
  destruct (newPackage d s1) as [p s2] eqn:E2.
  assert (Hloop : ∀ a, is_Some (range_imports p (Imports d) a)).
  { revert IHimps Hall. generalize (Imports d).
    induction l as [|[k ip] rest IHrest]; intros HF Htyped a; simpl; [eauto|].
    inversion HF as [|? ? Hip Hrest]; subst. simpl in Hip, Htyped.
    apply andb_true_iff in Htyped as [Hty1 Hty2].
    destruct (Hip Hty1 (Some p) a) as [a' ->]. simpl. by apply IHrest. }
  destruct (Hloop s2) as [s3 E3]. rewrite E3. simpl.
  destruct (only_adds_range_imports _ _ _ _ E3) as [_ Hkeep].
  unfold newPackage in E2. injection E2 as <- <-. simpl in Hkeep.
  destruct (Hkeep (length (heap s1)) _ (list_lookup_middle _ [] _ _ eq_refl))
    as (pk' & Hpk' & _ & _ & _ & _ & Hty' & _).
  simpl in Hty'. unfold put at 1, GetTypes. rewrite Hpk'. simpl.
  rewrite Hty', Ht. simpl. destruct parent; eauto.
Qed.

(** X4: when every descriptor of the tree carries type information,
    [Add] returns: no step of the registration panics. *)
Theorem Add_typed_succeeds d s :
  typed d = true → is_Some (Add d s).
Proof. intros H. by apply recursiveAdd_typed_succeeds. Qed.

Lemma Add_typed_succeeds_witness :
  typed app_descriptor = true ∧ is_Some (Add app_descriptor NewCache).
Proof.
  split; [reflexivity|].
  exact (Add_typed_succeeds app_descriptor NewCache eq_refl).
Defined.

(** X5: [Add] of a root that was not registered publishes the
    descriptor's data: the unit that [Get] returns afterwards for the
    path of the root's type information is the one allocated for the
    root, and its identifier, path, files, diagnostics and type
    information are those of the descriptor, the files wrapped one by
    one in their order. *)
Theorem Add_publishes_descriptor d t s s' :
  pathMap s !! PkgPath d = None →
  Types d = Some t →
  Add d s = Some s' →
  ∃ pk,
    (Get (types_Path t) s').1 = Some (length (heap s)) ∧
    heap s' !! length (heap s) = Some pk ∧
    id pk = ID d ∧ pkgPath pk = PkgPath d ∧
    file <$> files pk = Syntax d ∧
    errors pk = Errors d ∧ types pk = Types d ∧ typesInfo pk = TypesInfo d.
Proof.
  intros Hfresh Hty. unfold Add. rewrite recursiveAdd_unfold.
  unfold getGlobalPackage. rewrite Hfresh.
  destruct (newPackage d _) as [p s2] eqn:E2.
  destruct (range_imports p (Imports d) s2) as [s3|] eqn:E3; simpl; [|done].
  destruct (put p s3) as [s4|] eqn:E4; simpl; [|done].
  intros [= <-].
  destruct (only_adds_range_imports _ _ _ _ E3) as [_ Hkeep].
  unfold newPackage in E2. injection E2 as <- <-. simpl in Hkeep.
  destruct (Hkeep (length (heap s)) _ (list_lookup_middle _ [] _ _ eq_refl))
    as (pk' & Hpk' & Hid & Hpath & Hfiles & Herr & Hty' & Hinfo).
  simpl in *.
  destruct (put_inv _ _ _ E4) as (pk & t' & Hpk & Ht' & ->).
  simpl in Hpk. assert (pk = pk') by congruence. subst pk'.
  assert (t' = t) by congruence. subst t'.
  assert (Hf : file <$> createAstFiles d = Syntax d).
  { unfold createAstFiles. rewrite <- list_fmap_compose.
    induction (Syntax d) as [|f l IH]; [done|]. cbn. by f_equal. }
  exists pk. simpl. rewrite lookup_insert_eq, Hfiles, Hf. by repeat split.
Qed.

Lemma Add_publishes_descriptor_witness :
  pathMap two_units !! PkgPath app_descriptor = None ∧
  Types app_descriptor = Some {| types_Path := "app" |} ∧
  ∃ s', Add app_descriptor two_units = Some s' ∧
    ∃ pk,
      (Get "app" s').1 = Some 2 ∧ heap s' !! 2 = Some pk ∧
      id pk = "app [test]" ∧ pkgPath pk = "app" ∧
      file <$> files pk = [11; 12] ∧
      errors pk = ["unused variable"] ∧
      types pk = Types app_descriptor ∧
      typesInfo pk = TypesInfo app_descriptor.
Proof.
  split; [reflexivity|]. split; [reflexivity|].
  eexists. split; [vm_compute; reflexivity|].
  apply (Add_publishes_descriptor app_descriptor {| types_Path := "app" |}
           two_units); [reflexivity | reflexivity |].
  vm_compute. reflexivity.
Defined.

(** X6: the only key [Add] ever writes into an import map is the path of
    the importing unit itself: if every import map has no other key
    before, none has after. *)
Theorem Add_keeps_own_key_only d s s' :
  own_key_only (heap s) →
  Add d s = Some s' →
  own_key_only (heap s').
Proof.
  intros Hinv H. revert Hinv.
  apply (recursiveAdd_steps
           (λ a b, own_key_only (heap a) → own_key_only (heap b)))
    with (d := d) (parent := None); [| | | | | |exact H]; clear.
  - done.
  - eauto.
  - done.
  - intros d s Hinv a pk. simpl. intros Ha.
    apply lookup_app_Some in Ha as [Ha|[_ Ha]]; [by eapply Hinv|].
    apply list_lookup_singleton_Some in Ha as [_ <-]. simpl. set_solver.
  - intros p ip s Hinv a pk. simpl. destruct (decide (a = p)) as [->|Hne].
    + rewrite list_lookup_alter_eq.
      destruct (heap s !! p) as [pk0|] eqn:E; simpl; [|done].
      intros [= <-]. simpl. rewrite dom_insert.
      pose proof (Hinv _ _ E). set_solver.
    + rewrite list_lookup_alter_ne by done. apply Hinv.
  - intros p s s' H. by rewrite (heap_put _ _ _ H).
Qed.

Lemma Add_keeps_own_key_only_witness :
  own_key_only (heap NewCache) ∧
  Add main_descriptor NewCache = Some two_units ∧
  own_key_only (heap two_units).
Proof.
  assert (H0 : own_key_only (heap NewCache)) by (intros a pk H; discriminate H).
  assert (E : Add main_descriptor NewCache = Some two_units)
    by (vm_compute; reflexivity).
  exact (conj H0 (conj E (Add_keeps_own_key_only _ _ _ H0 E))).
Defined.

Lemma keyed_by_types_put p s s' :
  keyed_by_types s → put p s = Some s' → keyed_by_types s'.
Proof.
  intros Hinv H. destruct (put_inv _ _ _ H) as (pk & t & Hpk & Ht & ->).
  intros k gp. simpl. rewrite lookup_insert. case_decide as Hk.
  - intros [= <-]. subst k. simpl. eauto.
  - apply Hinv.
Qed.

(** X7: every entry of the map is filed under the path of the type
    information of its unit, and [Add] and [Put] keep it so: what [Get]
    returns for a path is a unit whose type information has that
    path. *)
Theorem registration_keeps_keyed_by_types d p s s' :
  keyed_by_types s →
  Add d s = Some s' ∨ Put p s = Some s' →
  keyed_by_types s'.
Proof.
  intros Hinv [H|H].
  - revert Hinv.
    apply (recursiveAdd_steps (λ a b, keyed_by_types a → keyed_by_types b))
      with (d := d) (parent := None); [| | | | | |exact H]; clear.
    + done.
    + eauto.
    + done.
    + intros d s Hinv k gp Hk. destruct (Hinv k gp Hk) as (pk & t & Hpk & ?).
      exists pk, t. split; [|done]. simpl. rewrite lookup_app_l; [done|].
      by eapply lookup_lt_Some.
    + intros p ip s Hinv k gp Hk. destruct (Hinv k gp Hk) as (pk & t & Hpk & ?).
      simpl. destruct (decide (gp_pkg gp = p)) as [<-|Hne].
      * rewrite list_lookup_alter_eq, Hpk. simpl. eauto.
      * rewrite list_lookup_alter_ne by done. eauto.
    + intros p s s'. eauto using keyed_by_types_put.
  - unfold Put in H.
    destruct (put p (emit EvLock s)) as [s1|] eqn:E; simpl in H; [|done].
    injection H as <-.
    exact (keyed_by_types_put p (emit EvLock s) s1 Hinv E).
Qed.

Lemma registration_keeps_keyed_by_types_witness :
  keyed_by_types NewCache ∧
  Add main_descriptor NewCache = Some two_units ∧
  keyed_by_types two_units.
Proof.
  assert (H0 : keyed_by_types NewCache) by (intros k gp H; discriminate H).
  assert (E : Add main_descriptor NewCache = Some two_units)
    by (vm_compute; reflexivity).
  exact (conj H0 (conj E
           (registration_keeps_keyed_by_types main_descriptor 0 _ _ H0
              (or_introl E)))).
Defined.

Lemma Add_registers_root_witness :
  Types main_descriptor = Some {| types_Path := PkgPath main_descriptor |} ∧
  Add main_descriptor NewCache = Some two_units ∧
  is_Some (pathMap two_units !! PkgPath main_descriptor).
Proof.
  assert (E : Add main_descriptor NewCache = Some two_units)
    by (vm_compute; reflexivity).
  exact (conj eq_refl
           (conj E (Add_registers_root main_descriptor NewCache two_units
                      eq_refl E))).
Defined.

Lemma type_paths_unfold d :
  type_paths d =
    match Types d with
    | Some t => [types_Path t]
    | None => []
    end ++ type_paths_imports (Imports d).
Proof.
  destruct d as [i pp sx e t ti imps]. cbn [type_paths Types Imports].
  f_equal.
Qed.

Lemma registers_within_refl paths s : registers_within paths s s.
Proof. intros k Hk. by left. Qed.

Lemma registers_within_trans paths s1 s2 s3 :
  registers_within paths s1 s2 → registers_within paths s2 s3 →
  registers_within paths s1 s3.
Proof.
  intros H12 H23 k Hk. destruct (H23 k Hk) as [Hk2|]; [|by right].
  apply H12, Hk2.
Qed.

Lemma registers_within_weaken paths paths' s s' :
  (∀ k, k ∈ paths → k ∈ paths') →
  registers_within paths s s' → registers_within paths' s s'.
Proof. intros Hsub H k Hk. destruct (H k Hk); [by left | right; auto]. Qed.

Lemma registers_within_same paths s s' :
  pathMap s' = pathMap s → registers_within paths s s'.
Proof. intros E k Hk. left. by rewrite <- E. Qed.

Lemma recursiveAdd_registers_within d :
  ∀ parent s s', recursiveAdd d parent s = Some s' →
    registers_within (type_paths d) s s'.
Proof.
  induction d as [d IHimps] using Package_nested_ind.
  intros parent s s'. rewrite recursiveAdd_unfold, type_paths_unfold.
  destruct (getGlobalPackage (PkgPath d) s) as [[gp|] s1] eqn:E1;
    unfold getGlobalPackage in E1; injection E1 as E1 <-.
  { destruct parent as [par|]; intros [= <-];
      by apply registers_within_same. }
  destruct (newPackage d _) as [p s2] eqn:E2.
  assert (Hloop : ∀ ips, Forall (λ e, ∀ parent s s',
                recursiveAdd e.2 parent s = Some s' →
                registers_within (type_paths e.2) s s') ips →
              ∀ a b, range_imports p ips a = Some b →
                registers_within (type_paths_imports ips) a b).
  { induction ips as [|[k ip] rest IHrest]; intros HF a b; simpl.
    - intros [= <-]. apply registers_within_refl.
    - inversion HF as [|? ? Hip Hrest]; subst. simpl in Hip.
      destruct (recursiveAdd ip (Some p) a) as [a'|] eqn:Ea; simpl; [|done].
      intros Hb. eapply registers_within_trans.
      + eapply registers_within_weaken; [|eapply Hip; exact Ea].
        intros k' Hk'. apply elem_of_app. by left.
      + eapply registers_within_weaken; [|eapply IHrest; eauto].
        intros k' Hk'. apply elem_of_app. by right. }
  destruct (range_imports p (Imports d) s2) as [s3|] eqn:E3; simpl; [|done].
  destruct (put p s3) as [s4|] eqn:E4; simpl; [|done].
  assert (G : registers_within
                (match Types d with
                 | Some t => [types_Path t]
                 | None => []
                 end ++ type_paths_imports (Imports d)) s s4).
  { destruct (only_adds_range_imports _ _ _ _ E3) as [_ Hkeep].
    unfold newPackage in E2. injection E2 as <- <-. simpl in Hkeep.
    destruct (Hkeep _ _ (list_lookup_middle _ [] _ _ eq_refl))
      as (pk' & Hpk' & _ & _ & _ & _ & Hty' & _).
    simpl in Hty', Hpk'.
    destruct (put_inv _ _ _ E4) as (pk & t & Hpk & Ht & ->).
    assert (pk = pk') by congruence. subst pk'. rewrite Ht in Hty'.
    rewrite <- Hty'. intros k Hk. simpl in Hk.
    rewrite dom_insert, elem_of_union, elem_of_singleton in Hk.
    destruct Hk as [->|Hk].
    - right. apply elem_of_app. left. by apply list_elem_of_singleton.
    - destruct (Hloop _ IHimps _ _ E3 k Hk) as [Hk'|Hk'].
      + by left.
      + right. apply elem_of_app. by right. }
  destruct parent as [par|]; intros [= <-]; [|exact G].
  eapply registers_within_trans; [exact G|].
  by apply registers_within_same.
Qed.

(** X22: [Add] registers nothing foreign: every path registered after
    the call was registered before or is the path of the type
    information of a descriptor of the tree. *)
Theorem Add_registers_within_tree d s s' :
  Add d s = Some s' →
  ∀ k, is_Some (pathMap s' !! k) →
    is_Some (pathMap s !! k) ∨ k ∈ type_paths d.
Proof.
  intros H k Hk. apply elem_of_dom in Hk.
  destruct (recursiveAdd_registers_within d None s s' H k Hk) as [Hk'|Hk'].
  - left. by apply elem_of_dom.
  - by right.
Qed.

Lemma Add_registers_within_tree_witness :
  Add main_descriptor NewCache = Some two_units ∧
  ∀ k, is_Some (pathMap two_units !! k) →
    is_Some (pathMap NewCache !! k) ∨ k ∈ type_paths main_descriptor.
Proof.
  assert (E : Add main_descriptor NewCache = Some two_units)
    by (vm_compute; reflexivity).
  exact (conj E (Add_registers_within_tree main_descriptor NewCache _ E)).
Defined.

End CacheMore.

(* ===================================================================== *)
(** ** Part VIII: further properties of the classifier *)
(* ===================================================================== *)

Module ClassifierMore.

Import Source SourceExamples ClassifierProofs.

Lemma findInterestingNode_no_panic_witness :
  well_formed_chain struct_member_path = true ∧
  findInterestingNode 5 analyzed struct_member_path ≠ Some Panicked.
Proof.
  split; [reflexivity|].
  exact (findInterestingNode_no_panic analyzed 5 struct_member_path eq_refl).
Defined.

Lemma findInterestingNode_terminates_witness :
  well_formed_chain struct_member_path = true ∧
  forallb (descends_safely analyzed) struct_member_path = true ∧
  ∃ fuel p a,
    findInterestingNode fuel analyzed struct_member_path
      = Some (Returned p a).
Proof.
  split; [reflexivity|]. split; [reflexivity|].
  exact (findInterestingNode_terminates analyzed struct_member_path
           eq_refl eq_refl).
Defined.

Lemma well_formed_never_exhausts_witness :
  exhausts unanalyzed [Ellipsis] ∧ well_formed_chain [Ellipsis] = false.
Proof.
  split; [exact exhausts_ellipsis|].
  exact (well_formed_never_exhausts unanalyzed [Ellipsis] exhausts_ellipsis).
Defined.

(** Splitting on everything a pass of the loop looks at. *)
Ltac split_pass H :=
  repeat match type of H with
         | context [match ?x with _ => _ end] =>
             let E := fresh "E" in destruct x eqn:E; simpl in H
         | context [if ?x then _ else _] =>
             let E := fresh "E" in destruct x eqn:E; simpl in H
         end.

Lemma loop_body_return_nonempty pkg n tl p a :
  loop_body pkg n (n :: tl) = Return p a → p ≠ [].
Proof.
  intros H.
  destruct tl as [|m1 [|m2 [|m3 tl]]];
    unfold loop_body, var_case, no_object_case, ascend in H; simpl in H;
    split_pass H; try discriminate H; injection H as <- <-; done.
Qed.

(** X11: the nil path is returned in one case only, when the loop has
    used up the chain; the category is then [unknown].  Every verdict
    reached inside the loop comes with a non-empty path. *)
Theorem nil_path_only_when_exhausted pkg fuel :
  ∀ path a,
    findInterestingNode fuel pkg path = Some (Returned [] a) →
    a = actionUnknown ∧ exhausts pkg path.
Proof.
  induction fuel as [|fuel IH]; intros path a H; [discriminate|].
  destruct path as [|n tl].
  - injection H as <-. split; [reflexivity | constructor].
  - cbn [findInterestingNode] in H.
    destruct (loop_body pkg n (n :: tl)) as [p b|p|] eqn:Hstep.
    + injection H as -> <-.
      by destruct (loop_body_return_nonempty _ _ _ _ _ Hstep).
    + destruct (IH _ _ H) as [-> Hex]. split; [reflexivity|].
      by eapply exhausts_step.
    + discriminate.
Qed.

Lemma nil_path_only_when_exhausted_witness :
  findInterestingNode 3 unanalyzed [FieldList; Ellipsis]
    = Some (Returned [] actionUnknown) ∧
  actionUnknown = actionUnknown ∧ exhausts unanalyzed [FieldList; Ellipsis].
Proof.
  split; [reflexivity|].
  exact (nil_path_only_when_exhausted unanalyzed 3 [FieldList; Ellipsis]
           actionUnknown eq_refl).
Defined.

Lemma loop_body_fits pkg n tl p a :
  loop_body pkg n (n :: tl) = Return p a → verdict_fits pkg p a = true.
Proof.
  intros H.
  destruct tl as [|m1 [|m2 [|m3 tl]]];
    unfold loop_body, var_case, no_object_case, ascend in H; simpl in H;
    split_pass H; try discriminate H; injection H as <- <-;
    unfold verdict_fits, kind_of; simpl;
    repeat match goal with
           | E : ?x = _ |- context [?x] => rewrite E; simpl
           end;
    reflexivity.
Qed.

(** X12: a verdict is given where the comments on the categories say.
    [statement] is reported at a statement or at a label; [type] at a
    composite type, at the name of a type or at a star expression that
    denotes a type; [package] at an import specifier, at a package name
    or at the name of the package clause; [expression] at a literal, a
    selector, another expression or an identifier for a constant, a
    variable, a function or nil. *)
Theorem verdict_fits_node pkg fuel :
  ∀ path p a,
    findInterestingNode fuel pkg path = Some (Returned p a) →
    verdict_fits pkg p a = true.
Proof.
  induction fuel as [|fuel IH]; intros path p a H; [discriminate|].
  destruct path as [|n tl]; [by injection H as <- <-|].
  cbn [findInterestingNode] in H.
  destruct (loop_body pkg n (n :: tl)) as [q b|q|] eqn:Hstep.
  - injection H as <- <-. by eapply loop_body_fits.
  - by eapply IH.
  - discriminate.
Qed.

Lemma verdict_fits_node_witness :
  findInterestingNode 1 analyzed struct_member_path
    = Some (Returned (drop 3 struct_member_path) actionType) ∧
  verdict_fits analyzed (drop 3 struct_member_path) actionType = true.
Proof.
  split; [reflexivity|].
  exact (verdict_fits_node analyzed 1 struct_member_path _ _ eq_refl).
Defined.

(** X13: one pass descends from a function declaration, a type or
    single-name value specifier, or a selector with a recorded use, to
    its name, and the next pass settles on that name: the category is the
    one of the name's object, [unknown] when it has none.  A built-in
    name sends the loop back to where it came from. *)
Theorem descent_classifies_name pkg n x rest fuel :
  descent_target pkg n = Some x →
  findInterestingNode (S (S fuel)) pkg (n :: rest) =
    match kind_of pkg x with
    | Some Builtin => findInterestingNode fuel pkg (n :: rest)
    | Some k => Some (Returned (IdentNode x :: n :: rest) (kind_action k))
    | None => Some (Returned (IdentNode x :: n :: rest) actionUnknown)
    end.
Proof.
  intros Ht.
  assert (Hstep : loop_body pkg n (n :: rest) = Continue (IdentNode x :: n :: rest)).
  { destruct n; try discriminate; simpl in Ht.
    - by injection Ht as ->.
    - destruct s as [|[|y [|? ?]]|y]; try discriminate; by injection Ht as ->.
    - simpl. destruct (map_index _ _); [|discriminate]. by injection Ht as ->. }
  assert (Hparent : is_field n = false) by (by destruct n).
  rewrite (findInterestingNode_continue _ _ _ _ _ Hstep).
  cbn [findInterestingNode loop_body]. unfold kind_of.
  destruct (ObjectOf (GetTypesInfo pkg) x) as [obj|] eqn:Hobj; simpl.
  - destruct (obj_kind obj); try reflexivity.
    unfold var_case. simpl. by destruct n.
  - unfold no_object_case. simpl.
    destruct n; try discriminate; try reflexivity.
    + destruct s as [|[|y [|? ?]]|y]; try discriminate; reflexivity.
    + exfalso. simpl in Ht. unfold ObjectOf in Hobj.
      destruct (map_index (Uses (GetTypesInfo pkg)) (ident_ptr Sel)) eqn:Hu;
        [|discriminate].
      injection Ht as ->. rewrite Hu in Hobj.
      by destruct (map_index (Defs (GetTypesInfo pkg)) (ident_ptr x)).
Qed.

Lemma descent_classifies_name_witness :
  descent_target analyzed (SpecNode (ValueSpec [x_id])) = Some x_id ∧
  findInterestingNode 2 analyzed (drop 1 decl_path)
    = Some (Returned decl_path actionExpr).
Proof.
  split; [reflexivity|].
  exact (descent_classifies_name analyzed (SpecNode (ValueSpec [x_id])) x_id
           (drop 2 decl_path) 0 eq_refl).
Defined.

(** The verdict on a specifier does not look past the specifier. *)
Lemma spec_verdict_uniform pkg s :
  ∀ fuel, ∃ r, ∀ up,
    findInterestingNode fuel pkg (SpecNode s :: up) = place s r up.
Proof.
  induction fuel as [fuel IH] using lt_wf_ind.
  destruct fuel as [|fuel]; [by exists None|].
  assert (Hname : ∀ x,
            is_Some (descent_target pkg (SpecNode s)) →
            (∀ up, loop_body pkg (SpecNode s) (SpecNode s :: up)
                     = Continue (IdentNode x :: SpecNode s :: up)) →
            ∃ r, ∀ up, findInterestingNode (S fuel) pkg (SpecNode s :: up)
                         = place s r up).
  { intros x Hs Hstep.
    destruct fuel as [|fuel].
    { exists None. intros up. cbn [findInterestingNode]. by rewrite Hstep. }
    destruct (ObjectOf (GetTypesInfo pkg) x) as [obj|] eqn:Hobj.
    - destruct (obj_kind obj) eqn:Hkind;
        try (eexists (Some ([IdentNode x], _)); intros up;
             rewrite (findInterestingNode_continue _ _ _ _ _ (Hstep up));
             cbn [findInterestingNode loop_body]; rewrite Hobj, Hkind;
             destruct s; reflexivity).
      destruct (IH fuel ltac:(lia)) as [r Hr]. exists r. intros up.
      rewrite (findInterestingNode_continue _ _ _ _ _ (Hstep up)).
      cbn [findInterestingNode loop_body]. rewrite Hobj, Hkind. apply Hr.
    - exists (Some ([IdentNode x], actionUnknown)). intros up.
      rewrite (findInterestingNode_continue _ _ _ _ _ (Hstep up)).
      cbn [findInterestingNode loop_body]. rewrite Hobj.
      destruct s; [by destruct Hs | reflexivity | reflexivity]. }
  destruct s as [|Names|Name].
  - by exists (Some ([], actionPackage)).
  - destruct Names as [|x [|y more]].
    + by exists (Some ([], actionUnknown)).
    + apply (Hname x); [by eexists | reflexivity].
    + by exists (Some ([], actionUnknown)).
  - apply (Hname Name); [by eexists | reflexivity].
Qed.

(** X14: a declaration group with a single specifier is classified as
    that specifier is under any other ancestors: same descent, same
    category (and still running in the one case when the other is).  A
    group with no or several specifiers is [unknown]. *)
Theorem single_spec_group pkg Specs tl fuel :
  (∀ s, Specs = [s] →
     ∃ r,
       findInterestingNode (S fuel) pkg (GenDecl Specs :: tl)
         = place s r (GenDecl Specs :: tl) ∧
       ∀ up, findInterestingNode fuel pkg (SpecNode s :: up) = place s r up) ∧
  (length Specs ≠ 1 →
     findInterestingNode (S fuel) pkg (GenDecl Specs :: tl)
       = Some (Returned (GenDecl Specs :: tl) actionUnknown)).
Proof.
  split.
  - intros s ->. destruct (spec_verdict_uniform pkg s fuel) as [r Hr].
    exists r. split; [|exact Hr].
    rewrite (findInterestingNode_continue pkg (GenDecl [s]) tl
               (SpecNode s :: GenDecl [s] :: tl)) by reflexivity.
    apply Hr.
  - intros Hlen. destruct Specs as [|s [|s' more]]; [reflexivity| |reflexivity].
    by destruct Hlen.
Qed.

Lemma single_spec_group_witness :
  ∃ r,
    findInterestingNode 3 analyzed (drop 2 decl_path)
      = place (ValueSpec [x_id]) r (drop 2 decl_path) ∧
    ∀ up, findInterestingNode 2 analyzed (SpecNode (ValueSpec [x_id]) :: up)
            = place (ValueSpec [x_id]) r up.
Proof.
  exact (proj1 (single_spec_group analyzed [ValueSpec [x_id]] [File] 2)
           (ValueSpec [x_id]) eq_refl).
Defined.

End ClassifierMore.

(* ===================================================================== *)
(** ** Part IX: further properties of the resolver *)
(* ===================================================================== *)

Module ResolverMore.

Import Source SourceExamples ResolverProofs.

Section Facts.

Context {FileSet tokenFile : Type}.
Variable fset_File : FileSet → Pos → option tokenFile.
Variable tokenFileContainsPos : option tokenFile → Pos → bool.
Variable PathEnclosingInterval :
  astFile → Pos → Pos → option (list Node) * bool.

#[local] Abbreviation searched :=
  (searched FileSet tokenFile fset_File tokenFileContainsPos).
#[local] Abbreviation range_files :=
  (range_files FileSet tokenFile fset_File tokenFileContainsPos
               PathEnclosingInterval).
#[local] Abbreviation doEnclosingInterval :=
  (doEnclosingInterval FileSet tokenFile fset_File tokenFileContainsPos
                       PathEnclosingInterval).
#[local] Abbreviation getPathNodes :=
  (getPathNodes FileSet tokenFile fset_File tokenFileContainsPos
                PathEnclosingInterval).
#[local] Abbreviation getObjectPathNode :=
  (getObjectPathNode FileSet tokenFile fset_File tokenFileContainsPos
                     PathEnclosingInterval).

(** X15: the search settles on the first file, in the order of the
    unit's files, that is position-valid, contains the start offset and
    yields a path; files after it are not consulted. *)
Theorem first_matching_file_wins pkg fset start end_ pre f post path exact :
  files_of pkg = pre ++ f :: post →
  (∀ g, g ∈ pre →
     searched fset start g = false ∨
     (PathEnclosingInterval g start end_).1 = None) →
  searched fset start f = true →
  PathEnclosingInterval f start end_ = (Some path, exact) →
  doEnclosingInterval pkg fset start end_ = (Some path, exact).
Proof.
  intros Hfiles Hpre Hf Hpath.
  rewrite (doEnclosingInterval_files fset_File tokenFileContainsPos
             PathEnclosingInterval), Hfiles.
  clear Hfiles. induction pre as [|g pre IH]; simpl app.
  - rewrite range_files_step, Hf, Hpath. reflexivity.
  - rewrite range_files_step.
    assert (Hrest : ∀ g', g' ∈ pre →
              searched fset start g' = false ∨
              (PathEnclosingInterval g' start end_).1 = None)
      by (intros g' Hg'; apply Hpre; by right).
    destruct (Hpre g ltac:(left)) as [Hg|Hg].
    + rewrite Hg. by apply IH.
    + destruct (searched fset start g); [|by apply IH].
      destruct (PathEnclosingInterval g start end_) as [[q|] e];
        [discriminate Hg | by apply IH].
Qed.

(** X16: when the unit searched first covers the symbol's position,
    imports are not consulted: an identifier found innermost is
    returned with its path, any other innermost node gives the
    invalid-node error carrying that node, the path still being
    returned. *)
Theorem declaration_in_own_unit pkg fset o first up exact :
  doEnclosingInterval pkg fset (obj_Pos o) (obj_Pos o)
    = (Some (first :: up), exact) →
  getObjectPathNode pkg fset o =
    match first with
    | IdentNode id => Done (Some (first :: up), Some id, None)
    | _ => Done (Some (first :: up), None, Some (ErrInvalidNode first))
    end.
Proof.
  intros H. unfold Source.getObjectPathNode, Source.getPathNodes,
    astPathEnclosingInterval.
  rewrite H. simpl. by destruct first.
Qed.

Lemma getPathNodes_cases pkg fset start end_ :
  (∃ n up, getPathNodes pkg fset start end_ = (Some (n :: up), None)) ∨
  (len (getPathNodes pkg fset start end_).1 = 0 ∧
   (getPathNodes pkg fset start end_).2 = Some (ErrNoNode start)).
Proof.
  unfold Source.getPathNodes, astPathEnclosingInterval.
  destruct (Source.doEnclosingInterval _ _ _ _ _ pkg fset start end_)
    as [[[|n up]|] e]; simpl; eauto.
Qed.

(** X17: with a unit at hand and a symbol that has a package,
    [getObjectPathNode] never panics, and its three results agree: no
    error comes with the identifier and a path that starts at it; the
    invalid-node error comes with the path that starts at the offending
    node and no identifier; every other error comes with nothing. *)
Theorem getObjectPathNode_results A fset o :
  is_Some (obj_Pkg o) →
  ∃ nodes ident err,
    getObjectPathNode (Some A) fset o = Done (nodes, ident, err) ∧
    match err with
    | None => ∃ id up, nodes = Some (IdentNode id :: up) ∧ ident = Some id
    | Some (ErrInvalidNode n) =>
        ident = None ∧ ∃ up, nodes = Some (n :: up)
    | Some _ => ident = None ∧ nodes = None
    end.
Proof.
  intros [opkg Hpkg]. unfold Source.getObjectPathNode. rewrite Hpkg.
  destruct (getPathNodes_cases (Some A) fset (obj_Pos o) (obj_Pos o))
    as [(n & up & ->)|[Hlen _]].
  - simpl. destruct n; eexists _, _, _; (split; [reflexivity|]); simpl; eauto.
  - rewrite bool_decide_eq_true_2 by exact Hlen.
    destruct (GetImport A (types_Path opkg)) as [B|].
    + destruct (getPathNodes_cases (Some B) fset (obj_Pos o) (obj_Pos o))
        as [(n & up & ->)|[Hlen' Herr]].
      * simpl. destruct n; eexists _, _, _; (split; [reflexivity|]);
          simpl; eauto.
      * destruct (getPathNodes (Some B) fset (obj_Pos o) (obj_Pos o))
          as [nodes' err']. simpl in Herr. subst err'.
        eexists _, _, _. split; [reflexivity|]. simpl. done.
    + eexists _, _, _. split; [reflexivity|]. simpl. done.
Qed.

(** X18: a symbol whose position no file of the unit covers makes the
    call panic when there is no unit or the symbol has no package, as
    the objects of the universe scope have none: the import lookup
    dereferences nil. *)
Theorem getObjectPathNode_panics pkg fset o :
  (∀ f, f ∈ files_of pkg → searched fset (obj_Pos o) f = false) →
  pkg = None ∨ obj_Pkg o = None →
  getObjectPathNode pkg fset o = Crash.
Proof.
  intros Hno Hnil. unfold Source.getObjectPathNode.
  rewrite (getPathNodes_empty fset_File tokenFileContainsPos
             PathEnclosingInterval pkg fset _ _ Hno). simpl.
  destruct Hnil as [->| ->]; [reflexivity|]. by destruct pkg.
Qed.

(** X19: when neither the unit nor the unit it imports under the
    symbol's package path has a file covering the symbol's position, the
    call fails with the not-found error for that position, and returns
    neither path nor identifier. *)
Theorem declaration_found_nowhere A B fset o opkg :
  obj_Pkg o = Some opkg →
  GetImport A (types_Path opkg) = Some B →
  (∀ f, f ∈ files_of (Some A) → searched fset (obj_Pos o) f = false) →
  (∀ f, f ∈ files_of (Some B) → searched fset (obj_Pos o) f = false) →
  getObjectPathNode (Some A) fset o
    = Done (None, None, Some (ErrNoNode (obj_Pos o))).
Proof.
  intros Hpkg HB HnoA HnoB. unfold Source.getObjectPathNode.
  rewrite (getPathNodes_empty fset_File tokenFileContainsPos
             PathEnclosingInterval (Some A) fset _ _ HnoA), Hpkg, HB. simpl.
  unfold Source.getPathNodes, astPathEnclosingInterval.
  rewrite (doEnclosingInterval_files fset_File tokenFileContainsPos
             PathEnclosingInterval),
    (range_files_none fset_File tokenFileContainsPos PathEnclosingInterval)
    by exact HnoB.
  reflexivity.
Qed.

End Facts.

Lemma first_matching_file_wins_witness :
  files_of (Some unit_b) = [F_bad] ++ F2 :: [] ∧
  doEnclosingInterval (list span) span fset_File_ex contains_ex enclosing_ex
      (Some unit_b) the_fset 150 151 = (Some decl_path, true).
Proof.
  split; [reflexivity|].
  apply (first_matching_file_wins fset_File_ex contains_ex enclosing_ex
           (Some unit_b) the_fset 150 151 [F_bad] F2 []); try reflexivity.
  intros g Hg. apply list_elem_of_singleton in Hg as ->. by left.
Defined.

Lemma declaration_in_own_unit_witness :
  doEnclosingInterval (list span) span fset_File_ex contains_ex enclosing_ex
      (Some unit_b) the_fset (obj_Pos x_in_b) (obj_Pos x_in_b)
    = (Some decl_path, true) ∧
  getObjectPathNode (list span) span fset_File_ex contains_ex enclosing_ex
      (Some unit_b) the_fset x_in_b
    = Done (Some decl_path, Some x_id, None).
Proof.
  split; [reflexivity|].
  exact (declaration_in_own_unit fset_File_ex contains_ex enclosing_ex
           (Some unit_b) the_fset x_in_b (IdentNode x_id) (drop 1 decl_path)
           true eq_refl).
Defined.

Lemma getObjectPathNode_results_witness :
  is_Some (obj_Pkg y_lost) ∧
  ∃ nodes ident err,
    getObjectPathNode (list span) span fset_File_ex contains_ex enclosing_ex
        (Some unit_a) the_fset y_lost = Done (nodes, ident, err) ∧
    match err with
    | None => ∃ id up, nodes = Some (IdentNode id :: up) ∧ ident = Some id
    | Some (ErrInvalidNode n) => ident = None ∧ ∃ up, nodes = Some (n :: up)
    | Some _ => ident = None ∧ nodes = None
    end.
Proof.
  assert (H : is_Some (obj_Pkg y_lost)) by (eexists; reflexivity).
  exact (conj H (getObjectPathNode_results fset_File_ex contains_ex
                   enclosing_ex unit_a the_fset y_lost H)).
Defined.

Lemma getObjectPathNode_panics_witness :
  (∀ f, f ∈ files_of (Some unit_a) →
        searched (list span) span fset_File_ex contains_ex the_fset
                 (obj_Pos nil_object) f = false) ∧
  obj_Pkg nil_object = None ∧
  getObjectPathNode (list span) span fset_File_ex contains_ex enclosing_ex
      (Some unit_a) the_fset nil_object = Crash.
Proof.
  assert (Hno : ∀ f, f ∈ files_of (Some unit_a) →
            searched (list span) span fset_File_ex contains_ex the_fset
                     (obj_Pos nil_object) f = false).
  { intros f Hf. apply list_elem_of_singleton in Hf as ->. reflexivity. }
  exact (conj Hno (conj eq_refl
           (getObjectPathNode_panics fset_File_ex contains_ex enclosing_ex
              (Some unit_a) the_fset nil_object Hno (or_intror eq_refl)))).
Defined.

Lemma declaration_found_nowhere_witness :
  obj_Pkg y_lost = Some {| types_Path := "b" |} ∧
  GetImport unit_a "b" = Some unit_b ∧
  getObjectPathNode (list span) span fset_File_ex contains_ex enclosing_ex
      (Some unit_a) the_fset y_lost
    = Done (None, None, Some (ErrNoNode 250)).
Proof.
  split; [reflexivity|]. split; [reflexivity|].
  apply (declaration_found_nowhere fset_File_ex contains_ex enclosing_ex
           unit_a unit_b the_fset y_lost {| types_Path := "b" |});
    try reflexivity.
  - intros f Hf. apply list_elem_of_singleton in Hf as ->. reflexivity.
  - intros f Hf. apply elem_of_cons in Hf as [->|Hf]; [reflexivity|].
    apply list_elem_of_singleton in Hf as ->. reflexivity.
Defined.

(** *** Looking a symbol up by name *)

Lemma findObject_range_Some o order d :
  findObject_range o order = Some d →
  obj_Name d = obj_Name o ∧ ∃ k, (k, Some d) ∈ order.
Proof.
  induction order as [|[k [def|]] rest IH]; simpl; [done| |].
  - case_bool_decide as Hname.
    + intros [= <-]. split; [done|]. exists k. left.
    + intros H. destruct (IH H) as [? [k' ?]]. split; [done|].
      exists k'. by right.
  - intros H. destruct (IH H) as [? [k' ?]]. split; [done|].
    exists k'. by right.
Qed.

Lemma findObject_range_None o order :
  findObject_range o order = None ↔
  ∀ k d, (k, Some d) ∈ order → obj_Name d ≠ obj_Name o.
Proof.
  induction order as [|[k [def|]] rest IH]; simpl.
  - split; [|done]. intros _ k d Hin. by apply elem_of_nil in Hin.
  - case_bool_decide as Hname.
    + split; [done|]. intros H. destruct (H k def); [left | done].
    + rewrite IH. split.
      * intros H k' d Hin. apply elem_of_cons in Hin as [[= -> ->]|Hin];
          [done | by eapply H].
      * intros H k' d Hin. eapply H. by right.
  - rewrite IH. split.
    + intros H k' d Hin. apply elem_of_cons in Hin as [[=]|Hin]. by eapply H.
    + intros H k' d Hin. eapply H. by right.
Qed.

(** X20: whatever the order in which the map of definitions is
    enumerated, [findObject] returns only a definition of the unit whose
    name is the name asked for, and it returns nil exactly when the unit
    has no definition of that name; nil entries of the map are passed
    over. *)
Theorem findObject_by_name pkg order o :
  order ≡ₚ map_to_list (Defs (GetTypesInfo pkg)) →
  (∀ d, findObject pkg order o = Some d →
        obj_Name d = obj_Name o ∧
        ∃ k, Defs (GetTypesInfo pkg) !! k = Some (Some d)) ∧
  (findObject pkg order o = None ↔
   ∀ k d, Defs (GetTypesInfo pkg) !! k = Some (Some d) →
          obj_Name d ≠ obj_Name o).
Proof.
  intros Hperm. unfold findObject. split.
  - intros d H. destruct (findObject_range_Some _ _ _ H) as [Hname [k Hin]].
    split; [done|]. exists k. rewrite Hperm in Hin.
    by apply elem_of_map_to_list in Hin.
  - rewrite findObject_range_None. split.
    + intros H k d Hk. apply (H k). rewrite Hperm.
      by apply elem_of_map_to_list.
    + intros H k d Hin. apply (H k). rewrite Hperm in Hin.
      by apply elem_of_map_to_list in Hin.
Qed.

Lemma findObject_by_name_witness :
  unit_defs_order ≡ₚ map_to_list (Defs (GetTypesInfo unit_defs)) ∧
  findObject unit_defs unit_defs_order y_lost = Some y_var ∧
  obj_Name y_var = obj_Name y_lost ∧
  ∃ k, Defs (GetTypesInfo unit_defs) !! k = Some (Some y_var).
Proof.
  assert (Hperm : unit_defs_order
                    ≡ₚ map_to_list (Defs (GetTypesInfo unit_defs))).
  { replace (map_to_list (Defs (GetTypesInfo unit_defs)))
      with [(2, Some y_var); (9, None); (1, Some x_in_b)]
      by (vm_compute; reflexivity).
    apply perm_swap. }
  split; [exact Hperm|]. split; [reflexivity|].
  exact (proj1 (findObject_by_name unit_defs unit_defs_order y_lost Hperm)
           y_var eq_refl).
Defined.

End ResolverMore.
